(** * xarray-behave: the alignment engine of [assemble]

    A shallow embedding of [src/xarray_behave/xarray_behave.py], function
    [assemble]: the canonical sampling grid, the nearest-frame lookup, the
    event binarizer and the assembly of the dataset out of whichever
    modality loaders succeeded.

    Conventions of the embedding.
    - Python and NumPy floats are idealised as exact rationals [Q]; the
      only float that is not a number, NaN, is written [None].
    - NumPy [intp]/[uintp] values are integers [Z]; the casts producing
      them ([int(..)], [.astype(np.uintp)]) are written out.
    - An exception is a value [Raised e] of the [result] monad; a
      [try ... except Exception] around a loader is an [option].
    - The loaders ([loaders.py]) and the timing object [ss] are not part of
      the embedded file: their outcomes are inputs of [assemble].

    After [assemble] come [derivative] and [remove_nan] of [metrics.py],
    [swap_flies] of [psv.py] and the navigation state of the viewer of
    [gui/app.py]. *)

From Stdlib Require Import ZArith QArith Qminmax Qround Qabs Lia Lqa.
From stdpp Require Import base option list strings gmap.

Local Open Scope Z_scope.

(** ** Exceptions and the result monad *)

Inductive exn : Type :=
| LoadError            (* whatever [ld.load_times] raises *)
| NameError
| KeyError
| ZeroDivisionError
| ValueError
| IndexError.

Inductive result (A : Type) : Type :=
| Ok (a : A)
| Raised (e : exn).
Arguments Ok {A} a.
Arguments Raised {A} e.

#[global] Instance result_ret : MRet result := fun A a => Ok a.
#[global] Instance result_bind : MBind result := fun A B f r =>
  match r with
  | Ok a => f a
  | Raised e => Raised e
  end.

Definition is_Ok {A} (r : result A) : Prop := exists a, r = Ok a.

(** ** Numbers *)

(** [int(x)] of a float: truncation toward zero. *)
Definition py_int (x : Q) : Z := Z.quot (Qnum x) (Zpos (Qden x)).

(** Python's [round(x)]: nearest integer, ties to the even one. Only the
    specification text uses it; [assemble] never rounds. *)
Definition py_round (x : Q) : Z :=
  let f := Qfloor x in
  match ((x - inject_Z f) ?= (1 # 2))%Q with
  | Lt => f
  | Gt => f + 1
  | Eq => if Z.even f then f else f + 1
  end.

(** Ceiling of the quotient [a / b], as NumPy uses it for the length of a
    range. *)
Definition ceil_div (a b : Z) : Z := - ((- a) / b).

Definition Qlt_bool (x y : Q) : bool := negb (Qle_bool y x).

(** What is outside the program: the integer a NaN becomes under
    [.astype(np.uintp)] (the C conversion is undefined there; NumPy on
    x86-64 yields [2^63], on AArch64 [0]) and the least number of knots
    [scipy.interpolate.interp1d] accepts (1 or 2, by SciPy release). *)
Record Platform : Type := {
  nan_as_uintp : Z;
  interp1d_min_entries : nat
}.

(** [.astype(np.uintp)] of a float: truncation, modulo the word size. *)
Definition astype_uintp (x : Q) : Z := py_int x mod 2 ^ 64.

Definition astype_uintp_nan (pf : Platform) (v : option Q) : Z :=
  match v with
  | Some x => astype_uintp x
  | None => nan_as_uintp pf
  end.

(** ** [np.arange] *)

Fixpoint arange_from (start step : Z) (n : nat) : list Z :=
  match n with
  | O => []
  | S n' => start :: arange_from (start + step) step n'
  end.

(** [np.arange(start, stop, step)] on integers: [ceil((stop-start)/step)]
    elements, none when that is not positive; a zero step is an error. *)
Definition np_arange (start stop step : Z) : result (list Z) :=
  if Z.eqb step 0 then Raised ZeroDivisionError
  else Ok (arange_from start step (Z.to_nat (ceil_div (stop - start) step))).

(** [np.arange(start, stop)]: the default step 1 cannot fail. *)
Definition np_arange1 (start stop : Z) : list Z :=
  arange_from start 1 (Z.to_nat (stop - start)).

(** ** The timing object [ss] returned by [ld.load_times] *)

Record SampStamp : Type := {
  ss_sample : Z -> Q;      (* ss.sample(frame): sample number of a frame *)
  ss_frame : Z -> Q;       (* ss.frame(sample): frame number of a sample *)
  ss_frame_time : Z -> Q   (* ss.frame_time(frame): time of a frame, seconds *)
}.

(** A valid Timing Model: the frame-to-sample mapping is monotone. *)
Definition monotone_timing (ss : SampStamp) : Prop :=
  forall f g : Z, f <= g -> (ss_sample ss f <= ss_sample ss g)%Q.

(** ** The canonical grid, lines 119-128 *)

Record Grid : Type := {
  last_sample_with_frame : Z;
  first_sample : Z;
  last_sample : Z;
  step : Z;
  target_samples : list Z;
  time : list Q;
  sampletime : list Q
}.

(** [np.min((last_sample_number, ss.sample(frame=last_tracked_frame - 1)))
    .astype(np.intp)] *)
Definition compute_last_sample_with_frame
    (ss : SampStamp) (last_sample_number last_tracked_frame : Z) : Z :=
  py_int (Qmin (inject_Z last_sample_number)
               (ss_sample ss (last_tracked_frame - 1))).

(** [int(sampling_rate / target_sampling_rate)] *)
Definition compute_step (sampling_rate target_sampling_rate : Q) : Z :=
  py_int (sampling_rate / target_sampling_rate).

Definition seconds (sampling_rate : Q) (samples : list Z) : list Q :=
  map (fun s => inject_Z s / sampling_rate)%Q samples.

Definition build_grid (ss : SampStamp) (last_sample_number : Z)
    (sampling_rate target_sampling_rate : Q) (last_tracked_frame : Z)
    : result Grid :=
  let lswf := compute_last_sample_with_frame ss last_sample_number last_tracked_frame in
  let first_sample := 0 in
  let last_sample := lswf in
  let step := compute_step sampling_rate target_sampling_rate in
  target_samples ← np_arange first_sample last_sample step;
  let time := seconds sampling_rate target_samples in
  let sampletime := seconds sampling_rate (np_arange1 first_sample last_sample) in
  mret {| last_sample_with_frame := lswf;
          first_sample := first_sample;
          last_sample := last_sample;
          step := step;
          target_samples := target_samples;
          time := time;
          sampletime := sampletime |}.

(** ** [scipy.interpolate.interp1d], with [bounds_error=False] and
    [fill_value=np.nan] *)

Record Interp (A : Type) : Type := {
  ip_x : list Q;
  ip_y : list A
}.
Arguments ip_x {A} _.
Arguments ip_y {A} _.

(** The constructor sorts the knots by abscissa ([np.argsort] with
    [kind="mergesort"], a stable sort, then [np.take]). *)
Fixpoint insert_knot {A} (k : Q * A) (l : list (Q * A)) : list (Q * A) :=
  match l with
  | [] => [k]
  | h :: t => if Qle_bool k.1 h.1 then k :: h :: t else h :: insert_knot k t
  end.

Definition sort_knots {A} (l : list (Q * A)) : list (Q * A) :=
  foldr insert_knot [] l.

Definition interp1d {A} (pf : Platform) (x : list Q) (y : list A)
    : result (Interp A) :=
  if negb (Nat.eqb (length x) (length y)) then Raised ValueError
  else if Nat.ltb (length x) (interp1d_min_entries pf) then Raised ValueError
  else let k := sort_knots (zip x y) in
       Ok {| ip_x := k.*1; ip_y := k.*2 |}.

(** [x_bds = x / 2.0; x_bds = x_bds[1:] + x_bds[:-1]] *)
Fixpoint midpoints (x : list Q) : list Q :=
  match x with
  | a :: (b :: _) as t => (b / 2 + a / 2)%Q :: midpoints t
  | _ => []
  end.

(** [np.searchsorted(a, v, side='left')] on a sorted [a]: the index of
    the first element that is not below [v]. *)
Fixpoint searchsorted_left (a : list Q) (v : Q) : nat :=
  match a with
  | [] => O
  | h :: t => if Qlt_bool h v then S (searchsorted_left t v) else O
  end.

(** [_check_bounds]: [x_new < x[0]] or [x_new > x[-1]]. *)
Definition out_of_bounds (x : list Q) (x_new : Q) : bool :=
  match head x, last x with
  | Some lo, Some hi => Qlt_bool x_new lo || Qlt_bool hi x_new
  | _, _ => true
  end.

(** [kind='nearest'] on integer ordinates; the result is a float. *)
Definition call_nearest (ip : Interp Z) (x_new : Q) : option Q :=
  let i := Nat.min (searchsorted_left (midpoints (ip_x ip)) x_new)
                   (length (ip_x ip) - 1) in
  if out_of_bounds (ip_x ip) x_new then None
  else inject_Z <$> ip_y ip !! i.

(** [kind='linear'] along axis 0 of an array whose rows are vectors. A
    bracket of zero width divides by zero: the row is NaN. *)
Definition call_linear (ip : Interp (list Q)) (x_new : Q) : option (list Q) :=
  let hi := Nat.min (Nat.max (searchsorted_left (ip_x ip) x_new) 1)
                    (length (ip_x ip) - 1) in
  let lo := (hi - 1)%nat in
  if out_of_bounds (ip_x ip) x_new then None
  else
    x_lo ← ip_x ip !! lo;
    x_hi ← ip_x ip !! hi;
    y_lo ← ip_y ip !! lo;
    y_hi ← ip_y ip !! hi;
    if Qeq_bool x_hi x_lo then None
    else Some (zip_with (fun a b => (b - a) / (x_hi - x_lo) * (x_new - x_lo) + a)%Q
                        y_lo y_hi).

(** ** Nearest frame of every grid point, lines 130-135 *)

Definition nearest_frame (pf : Platform) (ss : SampStamp)
    (first_tracked_frame last_tracked_frame : Z) (target_samples : list Z)
    : result (list Z) :=
  let frame_numbers := np_arange1 first_tracked_frame last_tracked_frame in
  let frame_samples := map (ss_sample ss) frame_numbers in
  interpolator ← interp1d pf frame_samples frame_numbers;
  mret (map (fun s => astype_uintp_nan pf (call_nearest interpolator (inject_Z s)))
            target_samples).

(** ** Event annotations, lines 159-169 *)

(** An annotation array has one column (point events) or two (onset and
    offset of segments): [val.shape[1] == 2]. *)
Inductive EventArray (T : Type) : Type :=
| PointEvents (t : list T)
| SegmentEvents (t : list (T * T)).
Arguments PointEvents {T} t.
Arguments SegmentEvents {T} t.

(** [(val * sampling_rate).astype(np.uintp)] *)
Definition to_samples (sampling_rate : Q) (val : EventArray Q) : EventArray Z :=
  let cast := fun t : Q => astype_uintp (t * sampling_rate) in
  match val with
  | PointEvents t => PointEvents (map cast t)
  | SegmentEvents t => SegmentEvents (map (fun p => (cast p.1, cast p.2)) t)
  end.

(** [np.concatenate] refuses an empty sequence of arrays. *)
Definition np_concatenate {A} (l : list (list A)) : result (list A) :=
  match l with
  | [] => Raised ValueError
  | _ => Ok (concat l)
  end.

(** [mask = [np.arange(t0, t1+1) for (t0, t1) in val]], concatenated. *)
Definition expand_events (val : EventArray Z) : result (list Z) :=
  match val with
  | PointEvents t => Ok t
  | SegmentEvents t =>
      np_concatenate (map (fun p => np_arange1 p.1 (p.2 + 1)) t)
  end.

(** The dictionary [events]: keys in insertion order. *)
Fixpoint expand_all (evs : list (string * EventArray Z))
    : result (list (string * list Z)) :=
  match evs with
  | [] => Ok []
  | (key, val) :: rest =>
      samples ← expand_events val;
      rest' ← expand_all rest;
      mret ((key, samples) :: rest')
  end.

Definition manual_events (sampling_rate : Q)
    (manual_events_seconds : list (string * EventArray Q))
    : result (list (string * list Z)) :=
  expand_all (map (fun kv => (kv.1, to_samples sampling_rate kv.2))
                  manual_events_seconds).

(** ** The event binarizer, lines 177-183 *)

(** [np.unique]: the sorted distinct values. *)
Fixpoint insert_unique (z : Z) (l : list Z) : list Z :=
  match l with
  | [] => [z]
  | h :: t =>
      if z <? h then z :: h :: t
      else if z =? h then h :: t
      else h :: insert_unique z t
  end.

Definition np_unique (l : list Z) : list Z := foldr insert_unique [] l.

(** [(events[key] / step).astype(np.uintp)], one element. *)
Definition bin_of (step s : Z) : Z :=
  astype_uintp (inject_Z s / inject_Z step).

(** Lines 181-182: the bins of one event type that are kept. *)
Definition event_times (step lswf : Z) (samples : list Z) : list Z :=
  List.filter
    (fun e => Qlt_bool (inject_Z e) (inject_Z lswf / inject_Z step))
    (np_unique (map (bin_of step) samples)).

Abbreviation Matrix := (list (list bool)).

Definition np_zeros (rows cols : nat) : Matrix :=
  replicate rows (replicate cols false).

(** [m[row, col] = True]; an index outside the array is an [IndexError]. *)
Definition set_true (m : Matrix) (row col : nat) : result Matrix :=
  match m !! row with
  | Some r =>
      if decide (col < length r)%nat
      then Ok (<[row := <[col := true]> r]> m)
      else Raised IndexError
  | None => Raised IndexError
  end.

(** [song_events_np[event_times, cnt] = True] *)
Fixpoint write_events (m : Matrix) (times : list Z) (cnt : nat)
    : result Matrix :=
  match times with
  | [] => Ok m
  | e :: rest =>
      m' ← set_true m (Z.to_nat e) cnt;
      write_events m' rest cnt
  end.

(** [for cnt, key in enumerate(events.keys()): ...] *)
Fixpoint bin_loop (step lswf : Z) (events : list (string * list Z))
    (cnt : nat) (m : Matrix) : result Matrix :=
  match events with
  | [] => Ok m
  | (key, samples) :: rest =>
      m' ← write_events m (event_times step lswf samples) cnt;
      bin_loop step lswf rest (S cnt) m'
  end.

Definition song_events_np (step lswf : Z) (grid_length : nat)
    (events : list (string * list Z)) : result Matrix :=
  bin_loop step lswf events 0 (np_zeros grid_length (length events)).




(** ** The outcome of the loaders *)

(** [ld.load_times]: the timing object, the number of the last sample of
    the recording and its sampling rate. *)
Record Recording : Type := {
  rec_ss : SampStamp;
  last_sample_number : Z;
  sampling_rate : Q
}.

(** [ld.load_tracks]; one row of [body_pos] per tracked frame. *)
Record Tracks : Type := {
  body_pos : list (list Q);
  first_tracked_frame : Z;
  last_tracked_frame : Z
}.

(** [ld.load_poses_deepposekit] and [ld.load_poses_leap]. *)
Record Poses : Type := {
  pose_pos : list (list Q);
  pose_pos_allo : list (list Q);
  first_pose_frame : Z;
  last_pose_frame : Z
}.

(** [ld.load_segmentation]: the dictionary [res] with the entries that
    [assemble] reads, ['song'] (samples not modelled),
    ['pulse_times_samples'] and ['pulse_labels']. *)
Record Segmentation : Type := {
  pulse_times_samples : list Z;
  pulse_labels : list Z
}.

(** Every loader but [load_times] is called under [try]: [None] (or
    [false], where the value is a signal whose samples are not modelled)
    stands for any exception it raises. *)
Record Loaders : Type := {
  load_times : option Recording;
  load_tracks_fixed : option Tracks;
  load_tracks_nonfixed : option Tracks;
  load_poses_deepposekit : option Poses;
  load_poses_leap : option Poses;
  load_segmentation : option Segmentation;
  load_raw_song : bool;
  merge_channels : bool;
  load_manual_annotation : option (list (string * EventArray Q))
}.

(** ** The arrays of the dataset *)

Inductive Payload : Type :=
| Signal                                   (* a slice of the recording *)
| Events (data : Matrix) (event_types : list string)
| Positions (data : list (option (list Q))).   (* [None]: a row of NaN *)

Record DataArray : Type := {
  da_data : Payload;
  da_dims : list string;
  da_time : list Q;            (* coordinate of the first dimension *)
  da_nearest_frame : option (list Z)
}.

Definition payload_length (p : Payload) : option nat :=
  match p with
  | Signal => None
  | Events data _ => Some (length data)
  | Positions data => Some (length data)
  end.

(** [xr.DataArray(data, dims, coords)]: a coordinate whose length differs
    from the data's is refused. *)
Definition xr_DataArray (data : Payload) (dims : list string)
    (time : list Q) (nearest_frame : option (list Z)) : result DataArray :=
  let n := length time in
  let data_fits := match payload_length data with
                   | Some k => Nat.eqb k n
                   | None => true
                   end in
  let coord_fits := match nearest_frame with
                    | Some nf => Nat.eqb (length nf) n
                    | None => true
                    end in
  if data_fits && coord_fits
  then Ok {| da_data := data; da_dims := dims; da_time := time;
             da_nearest_frame := nearest_frame |}
  else Raised ValueError.

(** [interpolator = interp1d(frame_samples, pos, axis=0, ...);
    pos = interpolator(target_samples)] *)
Definition resample (pf : Platform) (ss : SampStamp) (frame_numbers : list Z)
    (pos : list (list Q)) (target_samples : list Z)
    : result (list (option (list Q))) :=
  let frame_samples := map (ss_sample ss) frame_numbers in
  interpolator ← interp1d pf frame_samples pos;
  mret (map (fun s => call_linear interpolator (inject_Z s)) target_samples).

(** ** [assemble] *)

(** The names the later blocks of [assemble] rebind. *)
Record Locals : Type := {
  l_time : list Q;
  l_nearest_frame_time : list Z;
  l_frame_numbers : list Z;
  l_dataset_data : gmap string DataArray
}.

(** Lines 138-156: the merged song and, on request, the raw channels. *)
Definition song_block (sampletime : list Q) (with_song keep_multi_channel : bool)
    (res_has_song_raw : bool) (dataset_data : gmap string DataArray)
    : result (gmap string DataArray) :=
  if with_song then
    song ← xr_DataArray Signal ["sampletime"] sampletime None;
    let dataset_data := <["song" := song]> dataset_data in
    if keep_multi_channel then
      if res_has_song_raw then
        song_raw ← xr_DataArray Signal ["sampletime"; "channels"] sampletime None;
        mret (<["song_raw" := song_raw]> dataset_data)
      else Raised KeyError
    else mret dataset_data
  else mret dataset_data.

(** [events[key] = val] on a dictionary kept in insertion order. *)
Fixpoint dict_set {V} (key : string) (val : V) (d : list (string * V))
    : list (string * V) :=
  match d with
  | [] => [(key, val)]
  | (k, v) :: rest =>
      if String.eqb k key then (k, val) :: rest
      else (k, v) :: dict_set key val rest
  end.

(** [times[labels == label]], for one label per time. *)
Definition select_label (times labels : list Z) (label : Z) : list Z :=
  (List.filter (fun p : Z * Z => Z.eqb p.2 label) (zip times labels)).*1.

(** Lines 159-193. With an automatic segmentation, line 175 reads the name
    [song_labels], which nothing binds: the three assignments before it
    are lost with the frame. *)
Definition events_block (g : Grid) (sampling_rate : Q)
    (manual : option (list (string * EventArray Q)))
    (segmentation : option Segmentation)
    (nearest_frame_time : list Z) (dataset_data : gmap string DataArray)
    : result (gmap string DataArray) :=
  events ← match manual with
           | Some manual_events_seconds =>
               manual_events sampling_rate manual_events_seconds
           | None => Ok []
           end;
  events ← match segmentation with
           | Some res =>
               let events :=
                 dict_set "song_pulse_any" (pulse_times_samples res) events in
               let events :=
                 dict_set "song_pulse_slow"
                   (select_label (pulse_times_samples res) (pulse_labels res) 1)
                   events in
               let events :=
                 dict_set "song_pulse_fast"
                   (select_label (pulse_times_samples res) (pulse_labels res) 0)
                   events in
               (* events['sine'] = np.where(song_labels == 2)[0] *)
               Raised NameError
           | None => Ok events
           end;
  if bool_decide (is_Some manual) || bool_decide (is_Some segmentation) then
    let eventtypes := events.*1 in
    song_events_np ← song_events_np (step g) (last_sample_with_frame g)
                                    (length (time g)) events;
    song_events ← xr_DataArray (Events song_events_np eventtypes)
                               ["time"; "event_types"] (time g)
                               (Some nearest_frame_time);
    mret (<["song_events" := song_events]> dataset_data)
  else mret dataset_data.

(** Lines 196-224. *)
Definition tracks_block (pf : Platform) (ss : SampStamp) (g : Grid)
    (resample_video_data : bool) (tracks : option Tracks)
    (first_tracked_frame last_tracked_frame : Z) (l : Locals) : result Locals :=
  match tracks with
  | Some t =>
      let frame_times := map (ss_frame_time ss) (l_frame_numbers l) in
      '(body_pos, l) ←
        (if resample_video_data then
           let frame_numbers := np_arange1 first_tracked_frame last_tracked_frame in
           body_pos ← resample pf ss frame_numbers (body_pos t) (target_samples g);
           mret (body_pos,
                 {| l_time := l_time l;
                    l_nearest_frame_time := l_nearest_frame_time l;
                    l_frame_numbers := frame_numbers;
                    l_dataset_data := l_dataset_data l |})
         else
           mret (Some <$> body_pos t,
                 {| l_time := frame_times;
                    l_nearest_frame_time := l_frame_numbers l;
                    l_frame_numbers := l_frame_numbers l;
                    l_dataset_data := l_dataset_data l |}));
      positions ← xr_DataArray (Positions body_pos)
                               ["time"; "flies"; "bodyparts"; "coords"]
                               (l_time l) (Some (l_nearest_frame_time l));
      mret {| l_time := l_time l;
              l_nearest_frame_time := l_nearest_frame_time l;
              l_frame_numbers := l_frame_numbers l;
              l_dataset_data := <["body_positions" := positions]> (l_dataset_data l) |}
  | None => mret l
  end.

(** Lines 227-274. *)
Definition poses_block (pf : Platform) (ss : SampStamp) (g : Grid)
    (resample_video_data : bool) (poses : option Poses) (l : Locals)
    : result Locals :=
  match poses with
  | Some p =>
      let frame_times := map (ss_frame_time ss) (l_frame_numbers l) in
      '(pose_pos, pose_pos_allo, l) ←
        (if resample_video_data then
           let frame_numbers := np_arange1 (first_pose_frame p) (last_pose_frame p) in
           pose_pos ← resample pf ss frame_numbers (pose_pos p) (target_samples g);
           pose_pos_allo ← resample pf ss frame_numbers (pose_pos_allo p)
                                    (target_samples g);
           mret (pose_pos, pose_pos_allo,
                 {| l_time := l_time l;
                    l_nearest_frame_time := l_nearest_frame_time l;
                    l_frame_numbers := frame_numbers;
                    l_dataset_data := l_dataset_data l |})
         else
           mret (Some <$> pose_pos p, Some <$> pose_pos_allo p,
                 {| l_time := frame_times;
                    l_nearest_frame_time := l_frame_numbers l;
                    l_frame_numbers := l_frame_numbers l;
                    l_dataset_data := l_dataset_data l |}));
      poses ← xr_DataArray (Positions pose_pos)
                           ["time"; "flies"; "poseparts"; "coords"]
                           (l_time l) (Some (l_nearest_frame_time l));
      let dataset_data := <["pose_positions" := poses]> (l_dataset_data l) in
      poses_allo ← xr_DataArray (Positions pose_pos_allo)
                                ["time"; "flies"; "poseparts"; "coords"]
                                (l_time l) (Some (l_nearest_frame_time l));
      mret {| l_time := l_time l;
              l_nearest_frame_time := l_nearest_frame_time l;
              l_frame_numbers := l_frame_numbers l;
              l_dataset_data := <["pose_positions_allo" := poses_allo]> dataset_data |}
  | None => mret l
  end.

(** Lines 35-56: the fixed tracks, else the non-fixed ones. *)
Definition loaded_tracks (ld : Loaders) : option Tracks :=
  match load_tracks_fixed ld with
  | Some t => Some t
  | None => load_tracks_nonfixed ld
  end.

(** Without tracks the first and last tracked frames are those of the
    first and of the last sample of the recording. *)
Definition tracked_range (rec : Recording) (tracks : option Tracks) : Z * Z :=
  match tracks with
  | Some t => (first_tracked_frame t, last_tracked_frame t)
  | None => (py_int (ss_frame (rec_ss rec) 0),
             py_int (ss_frame (rec_ss rec) (last_sample_number rec)))
  end.

(** Lines 58-79: the poses of DeepPoseKit, else those of LEAP. *)
Definition loaded_poses (ld : Loaders) : option Poses :=
  match load_poses_deepposekit ld with
  | Some p => Some p
  | None => load_poses_leap ld
  end.

(** Lines 94-107: [with_song] after the block, and whether [res] has the
    key ['song_raw']. A failure of [merge_channels] leaves the [try]
    before [with_song] is set. *)
Definition raw_song_block (with_song keep_multi_channel : bool) (ld : Loaders)
    : bool * bool :=
  if negb with_song || keep_multi_channel then
    if load_raw_song ld then
      if negb with_song && negb (merge_channels ld) then (with_song, false)
      else (true, keep_multi_channel)
    else (with_song, false)
  else (with_song, false).

(** The dataset is the dictionary [dataset_data] given to [xr.Dataset]. *)
Definition assemble (pf : Platform) (ld : Loaders) (target_sampling_rate : Q)
    (keep_multi_channel resample_video_data : bool)
    : result (gmap string DataArray) :=
  (* load RECORDING and TIMING INFORMATION: not under [try] *)
  rec ← match load_times ld with
        | Some r => Ok r
        | None => Raised LoadError
        end;
  let ss := rec_ss rec in
  let tracks := loaded_tracks ld in
  let first_tracked_frame := (tracked_range rec tracks).1 in
  let last_tracked_frame := (tracked_range rec tracks).2 in
  let poses := loaded_poses ld in
  (* load AUTOMATIC SEGMENTATION *)
  let segmentation := load_segmentation ld in
  let with_song := bool_decide (is_Some segmentation) in
  (* load RAW song traces *)
  let flags := raw_song_block with_song keep_multi_channel ld in
  let with_song := flags.1 in
  let res_has_song_raw := flags.2 in
  (* load MANUAL SONG ANNOTATIONS *)
  let manual := load_manual_annotation ld in
  (* lines 119-135: the grid and the nearest frames *)
  g ← build_grid ss (last_sample_number rec) (sampling_rate rec)
                 target_sampling_rate last_tracked_frame;
  nearest_frame_time ← nearest_frame pf ss first_tracked_frame last_tracked_frame
                                     (target_samples g);
  dataset_data ← song_block (sampletime g) with_song keep_multi_channel
                            res_has_song_raw ∅;
  dataset_data ← events_block g (sampling_rate rec) manual segmentation
                              nearest_frame_time dataset_data;
  let l := {| l_time := time g;
              l_nearest_frame_time := nearest_frame_time;
              l_frame_numbers := np_arange1 first_tracked_frame last_tracked_frame;
              l_dataset_data := dataset_data |} in
  l ← tracks_block pf ss g resample_video_data tracks
                   first_tracked_frame last_tracked_frame l;
  l ← poses_block pf ss g resample_video_data poses l;
  mret (l_dataset_data l).

(** ** Predicates used in the statements *)

(** All rows of a matrix have the same length. *)
Definition shape (m : Matrix) (rows cols : nat) : Prop :=
  length m = rows /\ Forall (fun r => length r = cols) m.


Fixpoint nondecreasing_Q (l : list Q) : Prop :=
  match l with
  | a :: (b :: _) as t => (a <= b)%Q /\ nondecreasing_Q t
  | _ => True
  end.

Definition nondecreasing (l : list Z) : Prop :=
  forall (i j : nat) (a b : Z),
    (i <= j)%nat -> l !! i = Some a -> l !! j = Some b -> a <= b.


Fixpoint increasing_Q (l : list Q) : Prop :=
  match l with
  | a :: (b :: _) as t => (a < b)%Q /\ increasing_Q t
  | _ => True
  end.

(** No segment array without rows: [np.concatenate] has something to
    join. *)
Definition expandable {T} (evs : list (string * EventArray T)) : Prop :=
  forall key, (key, SegmentEvents []) ∉ evs.

(** ** Concrete recordings *)

(** A recording whose frame [f] is taken at sample [100 * f], sampled at
    100 Hz. *)
Definition ss_ex : SampStamp :=
  {| ss_sample := fun f => inject_Z (100 * f);
     ss_frame := fun s => inject_Z (s / 100);
     ss_frame_time := fun f => inject_Z f |}.

Definition rec_ex : Recording :=
  {| rec_ss := ss_ex; last_sample_number := 1000; sampling_rate := 100 |}.

(** Frames 2..5 tracked, one coordinate pair per frame. *)
Definition tracks_ex : Tracks :=
  {| body_pos := [[1; 2]; [3; 4]; [5; 6]; [7; 8]]%Q;
     first_tracked_frame := 2;
     last_tracked_frame := 6 |}.

Definition pf_x86 : Platform :=
  {| nan_as_uintp := 2 ^ 63; interp1d_min_entries := 2 |}.

(** An automatic segmentation with one slow pulse at sample 120. *)
Definition seg_ex : Segmentation :=
  {| pulse_times_samples := [120]; pulse_labels := [1] |}.

(** Tracks and raw song load, poses and annotations do not. *)
Definition ld_ex (segmentation : option Segmentation) : Loaders :=
  {| load_times := Some rec_ex;
     load_tracks_fixed := None;
     load_tracks_nonfixed := Some tracks_ex;
     load_poses_deepposekit := None;
     load_poses_leap := None;
     load_segmentation := segmentation;
     load_raw_song := true;
     merge_channels := true;
     load_manual_annotation := None |}.

(** Like [ld_ex None], with manual annotations: a sine segment from 1.1 s
    to 1.3 s and pulses at 2 s and 3.05 s. *)
Definition ld_manual_ex : Loaders :=
  {| load_times := Some rec_ex;
     load_tracks_fixed := None;
     load_tracks_nonfixed := Some tracks_ex;
     load_poses_deepposekit := None;
     load_poses_leap := None;
     load_segmentation := None;
     load_raw_song := true;
     merge_channels := true;
     load_manual_annotation :=
       Some [("sine_manual"%string, SegmentEvents [(1.1, 1.3)%Q]);
             ("pulse_manual"%string, PointEvents [2; 3.05]%Q)] |}.

(** * [metrics.py] *)

(** ** [metrics.derivative]

    One trace along the time axis, without NaN; [np.gradient] with
    [axis=0] treats every trace of a higher-dimensional array in this
    way.  The step [dt] is a scalar, so the spacing is uniform and the
    edges are one-sided differences ([edge_order=1], the default). *)

(** An entry known to be in range. *)
Definition item (l : list Q) (i : nat) : Q := nth i l 0%Q.

Definition np_gradient (f : list Q) (dx : Q) : result (list Q) :=
  let n := length f in
  if (n <? 2)%nat then Raised ValueError
  else
    let interior :=                 (* (f[2:] - f[:-2]) / (2. * dx) *)
      zip_with (fun a c => (c - a) / (2 * dx))%Q (take (n - 2) f) (drop 2 f) in
    let first := ((item f 1 - item f 0) / dx)%Q in
    let final := ((item f (n - 1) - item f (n - 2)) / dx)%Q in
    Ok (first :: interior ++ [final]).

Fixpoint gradient_loop (k : nat) (x : list Q) (dt : Q) : result (list Q) :=
  match k with
  | O => Ok x
  | S k' => y ← np_gradient x dt; gradient_loop k' y dt
  end.

(** [for _ in range(degree): x = np.gradient(x, dt, axis=axis)];
    [range] of a negative number is empty. *)
Definition derivative (x : list Q) (dt : Q) (degree : Z) : result (list Q) :=
  gradient_loop (Z.to_nat degree) x dt.

(** ** [metrics.remove_nan]

    The array is taken flattened, as [np.flatnonzero] and indexing by a
    boolean mask take it; an entry is a number or NaN. *)

Definition isnan (v : option Q) : bool :=
  match v with None => true | Some _ => false end.

Fixpoint flatnonzero_from (i : Z) (mask : list bool) : list Z :=
  match mask with
  | [] => []
  | b :: t =>
      if b then i :: flatnonzero_from (i + 1) t
      else flatnonzero_from (i + 1) t
  end.

Definition flatnonzero (mask : list bool) : list Z := flatnonzero_from 0 mask.

(** [x[~mask]]: the entries that are numbers, in order. *)
Definition valid_values (x : list (option Q)) : list Q := omap id x.

(** The bracket search of [np.interp]: the number of leading sample
    points not above [x]; one more than the index [j] of the C code. *)
Fixpoint search_le (xp : list Q) (x : Q) : nat :=
  match xp with
  | [] => O
  | a :: t => if Qle_bool a x then S (search_le t x) else O
  end.

Definition interp_at (xp fp : list Q) (x : Q) : Q :=
  let n := length xp in
  let c := search_le xp x in
  if (c =? 0)%nat then item fp 0                       (* left of the points *)
  else if Qlt_bool (item xp (n - 1)) x then item fp (n - 1)   (* right *)
  else if (c =? n)%nat then item fp (n - 1)
  else if Qeq_bool (item xp (c - 1)) x then item fp (c - 1)
  else
    let slope := ((item fp c - item fp (c - 1))
                  / (item xp c - item xp (c - 1)))%Q in
    (slope * (x - item xp (c - 1)) + item fp (c - 1))%Q.

Definition np_interp (x xp fp : list Q) : result (list Q) :=
  if (length xp =? 0)%nat then Raised ValueError
  else if negb (length fp =? length xp)%nat then Raised ValueError
  else Ok (map (interp_at xp fp) x).

(** [x[mask] = vals]: the values go to the entries under the mask, in
    order; NumPy refuses another number of values than of such
    entries. *)
Fixpoint mask_assign (x : list (option Q)) (mask : list bool) (vals : list Q)
    : result (list (option Q)) :=
  match x, mask with
  | v :: t, b :: m =>
      if b then
        match vals with
        | w :: ws => r ← mask_assign t m ws; Ok (Some w :: r)
        | [] => Raised ValueError
        end
      else r ← mask_assign t m vals; Ok (v :: r)
  | _, _ => match vals with [] => Ok x | _ :: _ => Raised ValueError end
  end.

Definition remove_nan (x : list (option Q)) : result (list (option Q)) :=
  let mask := map isnan x in
  vals ← np_interp (map inject_Z (flatnonzero mask))
                   (map inject_Z (flatnonzero (map negb mask)))
                   (valid_values x);
  mask_assign x mask vals.

(** ** Predicates and abbreviations for [metrics] *)


(** [np.flatnonzero(~mask)], counted from [k]. *)
Definition valid_indices (k : Z) (x : list (option Q)) : list Z :=
  flatnonzero_from k (map negb (map isnan x)).

(** An entry after [x[mask] = vals] where the values are a function of
    the masked indices. *)
Definition filled (g : Z -> Q) (j : Z) (v : option Q) : option Q :=
  match v with Some q => Some q | None => Some (g j) end.

(** What [remove_nan] writes at index [j] when the entry is NaN. *)
Definition nan_fill (x : list (option Q)) (j : Z) : Q :=
  interp_at (map inject_Z (valid_indices 0 x)) (valid_values x) (inject_Z j).

(** * [psv.py]: identity swaps

    [swap_flies(ds, index, swap_events, fly1, fly2)] exchanges two flies
    in the three position arrays from a time index on and toggles the
    swap in a log.  An array [time, flies, ...] is a list of rows, a row
    the list of its flies, a fly the remaining axes flattened.  The
    sampling rates are Python numbers.  The log is a list the function
    changes in place: the first component of the outcome is that list
    after the call, whether or not the call returns. *)

Record SwapDataset : Type := {
  song_rate : Q;            (* ds.song.attrs['sampling_rate_Hz'] *)
  poses_rate : Q;           (* ds.pose_positions_allo.attrs['sampling_rate_Hz'] *)
  n_flies : nat;            (* the size of the dimension 'flies' *)
  ds_pose_positions_allo : list (list (list Q));
  ds_pose_positions : list (list (list Q));
  ds_body_positions : list (list (list Q)) }.

(** A Python index into an axis of size [n]: negative ones count from the
    end, others are out of bounds. *)
Definition py_index (n : nat) (i : Z) : option nat :=
  if decide (0 <= i < Z.of_nat n) then Some (Z.to_nat i)
  else if decide (- Z.of_nat n <= i < 0) then Some (Z.to_nat (i + Z.of_nat n))
  else None.

(** The first row of the slice [a[i:]] of [n] rows. *)
Definition slice_from (n : nat) (i : Z) : nat :=
  if decide (i < 0) then Z.to_nat (Z.max 0 (i + Z.of_nat n))
  else Z.to_nat (Z.min i (Z.of_nat n)).

(** One row of [a[.., [c2, c1]] = a[.., [c1, c2]]]: the right-hand side
    is a copy, so [c2] receives the old [c1] and then [c1] the old
    [c2]. *)
Definition swap_cells (c1 c2 : nat) (row : list (list Q)) : list (list Q) :=
  match row !! c1, row !! c2 with
  | Some v1, Some v2 => <[c1 := v2]> (<[c2 := v1]> row)
  | _, _ => row
  end.

(** [a[start:, [fly2, fly1], ...] = a[start:, [fly1, fly2], ...]].  An
    index out of bounds raises [IndexError]; when the slice selects no
    row, NumPy releases differ, the older ones letting it pass
    ([strict = false]). *)
Definition swap_from (strict : bool) (flies : nat) (start fly1 fly2 : Z)
    (a : list (list (list Q))) : result (list (list (list Q))) :=
  let s := slice_from (length a) start in
  match py_index flies fly1, py_index flies fly2 with
  | Some c1, Some c2 => Ok (take s a ++ map (swap_cells c1 c2) (drop s a))
  | _, _ =>
      if strict || (s <? length a)%nat then Raised IndexError else Ok a
  end.

(** [list.remove]: without the first occurrence. *)
Fixpoint list_remove (t : Z * Z * Z) (l : list (Z * Z * Z)) : list (Z * Z * Z) :=
  match l with
  | [] => []
  | u :: l' => if decide (t = u) then l' else u :: list_remove t l'
  end.

(** Lines 350-353. *)
Definition toggle_swap (t : Z * Z * Z) (swap_events : list (Z * Z * Z))
    : list (Z * Z * Z) :=
  if decide (t ∈ swap_events) then list_remove t swap_events
  else swap_events ++ [t].

Definition swap_index (ds : SwapDataset) (index : Q) : Z :=
  py_int (index * poses_rate ds / song_rate ds).

Definition swap_flies (strict : bool) (ds : SwapDataset) (index : Q)
    (swap_events : list (Z * Z * Z)) (fly1 fly2 : Z)
    : list (Z * Z * Z) * result SwapDataset :=
  if Qeq_bool (song_rate ds) 0 then (swap_events, Raised ZeroDivisionError)
  else
    let index_other := swap_index ds index in
    let swap_events' := toggle_swap (index_other, fly1, fly2) swap_events in
    (swap_events',
     allo ← swap_from strict (n_flies ds) index_other fly1 fly2
              (ds_pose_positions_allo ds);
     poses ← swap_from strict (n_flies ds) index_other fly1 fly2
               (ds_pose_positions ds);
     body ← swap_from strict (n_flies ds) index_other fly1 fly2
              (ds_body_positions ds);
     Ok {| song_rate := song_rate ds; poses_rate := poses_rate ds;
           n_flies := n_flies ds;
           ds_pose_positions_allo := allo;
           ds_pose_positions := poses;
           ds_body_positions := body |}).

(** ** Predicates for the swaps *)

(** Every row has one entry per fly. *)
Definition rectangular (flies : nat) (a : list (list (list Q))) : Prop :=
  Forall (fun row => length row = flies) a.

Definition well_shaped (ds : SwapDataset) : Prop :=
  rectangular (n_flies ds) (ds_pose_positions_allo ds)
  /\ rectangular (n_flies ds) (ds_pose_positions ds)
  /\ rectangular (n_flies ds) (ds_body_positions ds).

Definition cell (a : list (list (list Q))) (t f : nat) : option (list Q) :=
  row ← a !! t; row !! f.

(** The fly whose data [f] shows after flies [c1] and [c2] changed
    places. *)
Definition exchanged (c1 c2 f : nat) : nat :=
  if decide (f = c1) then c2 else if decide (f = c2) then c1 else f.

(** [a'] is [a] with flies [c1] and [c2] exchanged from row [s] on. *)
Definition swapped_from (s c1 c2 : nat) (a a' : list (list (list Q))) : Prop :=
  length a' = length a
  /\ forall t f : nat,
       cell a' t f
       = if decide (s <= t)%nat then cell a t (exchanged c1 c2 f)
         else cell a t f.

(** A dataset of three time points and two flies, the song sampled ten
    times as fast as the positions. *)
Definition swap_ds_ex : SwapDataset :=
  {| song_rate := 10000; poses_rate := 1000; n_flies := 2;
     ds_pose_positions_allo := [[[1]; [2]]; [[3]; [4]]; [[5]; [6]]]%Q;
     ds_pose_positions := [[[0]; [0]]; [[0]; [1]]; [[1]; [0]]]%Q;
     ds_body_positions := [[[1; 1]; [2; 2]]; [[3; 3]; [4; 4]]; [[5; 5]; [6; 6]]]%Q |}.

(** * [gui/app.py]: the state of the viewer

    The attributes of [PSV] that the commands of the menus read and
    write, with the recording's events as the rows of
    [ds.song_events.data].  Redrawing ([update_xy], [update_frame]) only
    reads them and is left out; the sampling rates are Python numbers. *)

Record PSV : Type := {
  psv_t0 : Q;                        (* _t0 *)
  psv_span : Q;                      (* _span *)
  psv_tmax : Q;
  psv_fs_song : Q;
  psv_fs_other : Q;
  psv_frame_interval : Q;
  psv_cue_index : Z;
  psv_cue_points : list Q;
  psv_focal_fly : Z;
  psv_other_fly : Z;
  psv_nb_flies : Z;
  psv_spec_win : Z;
  psv_events : list (list bool) }.

Definition with_t0 (st : PSV) (v : Q) : PSV :=
  {| psv_t0 := v; psv_span := psv_span st; psv_tmax := psv_tmax st;
     psv_fs_song := psv_fs_song st; psv_fs_other := psv_fs_other st;
     psv_frame_interval := psv_frame_interval st;
     psv_cue_index := psv_cue_index st; psv_cue_points := psv_cue_points st;
     psv_focal_fly := psv_focal_fly st; psv_other_fly := psv_other_fly st;
     psv_nb_flies := psv_nb_flies st; psv_spec_win := psv_spec_win st;
     psv_events := psv_events st |}.

Definition with_span (st : PSV) (v : Q) : PSV :=
  {| psv_t0 := psv_t0 st; psv_span := v; psv_tmax := psv_tmax st;
     psv_fs_song := psv_fs_song st; psv_fs_other := psv_fs_other st;
     psv_frame_interval := psv_frame_interval st;
     psv_cue_index := psv_cue_index st; psv_cue_points := psv_cue_points st;
     psv_focal_fly := psv_focal_fly st; psv_other_fly := psv_other_fly st;
     psv_nb_flies := psv_nb_flies st; psv_spec_win := psv_spec_win st;
     psv_events := psv_events st |}.

Definition with_cue_index (st : PSV) (v : Z) : PSV :=
  {| psv_t0 := psv_t0 st; psv_span := psv_span st; psv_tmax := psv_tmax st;
     psv_fs_song := psv_fs_song st; psv_fs_other := psv_fs_other st;
     psv_frame_interval := psv_frame_interval st;
     psv_cue_index := v; psv_cue_points := psv_cue_points st;
     psv_focal_fly := psv_focal_fly st; psv_other_fly := psv_other_fly st;
     psv_nb_flies := psv_nb_flies st; psv_spec_win := psv_spec_win st;
     psv_events := psv_events st |}.

Definition with_flies (st : PSV) (focal other : Z) : PSV :=
  {| psv_t0 := psv_t0 st; psv_span := psv_span st; psv_tmax := psv_tmax st;
     psv_fs_song := psv_fs_song st; psv_fs_other := psv_fs_other st;
     psv_frame_interval := psv_frame_interval st;
     psv_cue_index := psv_cue_index st; psv_cue_points := psv_cue_points st;
     psv_focal_fly := focal; psv_other_fly := other;
     psv_nb_flies := psv_nb_flies st; psv_spec_win := psv_spec_win st;
     psv_events := psv_events st |}.

Definition with_spec_win (st : PSV) (v : Z) : PSV :=
  {| psv_t0 := psv_t0 st; psv_span := psv_span st; psv_tmax := psv_tmax st;
     psv_fs_song := psv_fs_song st; psv_fs_other := psv_fs_other st;
     psv_frame_interval := psv_frame_interval st;
     psv_cue_index := psv_cue_index st; psv_cue_points := psv_cue_points st;
     psv_focal_fly := psv_focal_fly st; psv_other_fly := psv_other_fly st;
     psv_nb_flies := psv_nb_flies st; psv_spec_win := v;
     psv_events := psv_events st |}.

Definition with_events (st : PSV) (v : list (list bool)) : PSV :=
  {| psv_t0 := psv_t0 st; psv_span := psv_span st; psv_tmax := psv_tmax st;
     psv_fs_song := psv_fs_song st; psv_fs_other := psv_fs_other st;
     psv_frame_interval := psv_frame_interval st;
     psv_cue_index := psv_cue_index st; psv_cue_points := psv_cue_points st;
     psv_focal_fly := psv_focal_fly st; psv_other_fly := psv_other_fly st;
     psv_nb_flies := psv_nb_flies st; psv_spec_win := psv_spec_win st;
     psv_events := v |}.

(** [np.clip(a, lo, hi)] is [minimum(maximum(a, lo), hi)]. *)
Definition np_clip (a lo hi : Q) : Q := Qmin (Qmax a lo) hi.

(** The setter of [t0], line 278. *)
Definition set_t0 (st : PSV) (val : Q) : PSV :=
  with_t0 st (np_clip val (psv_span st / 2)
                (psv_tmax st - psv_span st / 2))%Q.

(** The setter of [span], line 294. *)
Definition set_span (st : PSV) (val : Q) : PSV :=
  with_span st (Qmin (Qmax 200 val) (psv_tmax st)).

Definition zoom_in_song (st : PSV) : PSV := set_span st (psv_span st / 2)%Q.
Definition zoom_out_song (st : PSV) : PSV := set_span st (psv_span st * 2)%Q.

Definition single_frame_reverse (st : PSV) : PSV :=
  set_t0 st (psv_t0 st - psv_frame_interval st)%Q.
Definition single_frame_advance (st : PSV) : PSV :=
  set_t0 st (psv_t0 st + psv_frame_interval st)%Q.
Definition jump_reverse (st : PSV) : PSV :=
  set_t0 st (psv_t0 st - psv_span st / 2)%Q.
Definition jump_forward (st : PSV) : PSV :=
  set_t0 st (psv_t0 st + psv_span st / 2)%Q.

(** [self.t0 = self.cue_points[self.cue_index]], after [cue_index] has
    been set. *)
Definition goto_cuepoint (st : PSV) (i : Z) : result PSV :=
  match py_index (length (psv_cue_points st)) i with
  | Some k =>
      match psv_cue_points st !! k with
      | Some c => Ok (set_t0 (with_cue_index st i) c)
      | None => Raised IndexError
      end
  | None => Raised IndexError
  end.

Definition set_prev_cuepoint (st : PSV) : result PSV :=
  match psv_cue_points st with
  | [] => Ok st
  | _ :: _ => goto_cuepoint st (Z.max 0 (psv_cue_index st - 1))
  end.

Definition set_next_cuepoint (st : PSV) : result PSV :=
  match psv_cue_points st with
  | [] => Ok st
  | _ :: _ =>
      goto_cuepoint st
        (Z.min (psv_cue_index st + 1)
               (Z.of_nat (length (psv_cue_points st)) - 1))
  end.

Definition change_focal_fly (st : PSV) : PSV :=
  let tmp := (psv_focal_fly st + 1) mod psv_nb_flies st in
  if tmp =? psv_other_fly st
  then with_flies st (psv_other_fly st) (psv_focal_fly st)
  else with_flies st tmp (psv_other_fly st).

Definition inc_freq_res (st : PSV) : PSV :=
  with_spec_win st (psv_spec_win st * 2).

Definition dec_freq_res (st : PSV) : PSV :=
  with_spec_win st (Z.max 2 (psv_spec_win st / 2)).

Definition index_other (st : PSV) : result Z :=
  if Qeq_bool (psv_fs_song st) 0 then Raised ZeroDivisionError
  else Ok (py_int (psv_t0 st * psv_fs_other st / psv_fs_song st)).

Definition span_index (st : PSV) : result Q :=
  if Qeq_bool (psv_fs_other st) 0 || Qeq_bool (psv_fs_song st) 0
  then Raised ZeroDivisionError
  else Ok (psv_span st / (2 * psv_fs_song st / psv_fs_other st))%Q.

(** The two bounds of the slice of lines 365-366. *)
Definition view_bounds (st : PSV) : result (Z * Z) :=
  i ← index_other st;
  w ← span_index st;
  Ok (py_int (inject_Z i - w), py_int (inject_Z i + w)).

(** [a[start:stop, :] = False] *)
Definition clear_rows (start stop : Z) (a : list (list bool))
    : list (list bool) :=
  let lo := slice_from (length a) start in
  let hi := slice_from (length a) stop in
  imap (fun i row =>
          if (lo <=? i)%nat && (i <? hi)%nat then map (fun _ => false) row
          else row) a.

Definition delete_all_events (st : PSV) : result PSV :=
  b ← view_bounds st;
  Ok (with_events st (clear_rows b.1 b.2 (psv_events st))).

(** The commands of the menus "Playback", "Video" and "Audio" that are
    embedded here, by the names of their callbacks. *)
Inductive Command : Type :=
| SingleFrameReverse | JumpReverse | JumpForward | SingleFrameAdvance
| SetPrevCuepoint | SetNextCuepoint
| ZoomInSong | ZoomOutSong
| ChangeFocalFly
| DecFreqRes | IncFreqRes
| DeleteAllEvents.

Definition run_command (c : Command) (st : PSV) : result PSV :=
  match c with
  | SingleFrameReverse => Ok (single_frame_reverse st)
  | JumpReverse => Ok (jump_reverse st)
  | JumpForward => Ok (jump_forward st)
  | SingleFrameAdvance => Ok (single_frame_advance st)
  | SetPrevCuepoint => set_prev_cuepoint st
  | SetNextCuepoint => set_next_cuepoint st
  | ZoomInSong => Ok (zoom_in_song st)
  | ZoomOutSong => Ok (zoom_out_song st)
  | ChangeFocalFly => Ok (change_focal_fly st)
  | DecFreqRes => Ok (dec_freq_res st)
  | IncFreqRes => Ok (inc_freq_res st)
  | DeleteAllEvents => delete_all_events st
  end.

Fixpoint run_commands (cs : list Command) (st : PSV) : result PSV :=
  match cs with
  | [] => Ok st
  | c :: cs' => st' ← run_command c st; run_commands cs' st'
  end.

(** ** Predicates for the viewer *)

(** What holds after the constructor (lines 69-73 and 85) on a recording
    with sampling rates other than zero, and what every command keeps. *)
Definition consistent (st : PSV) : Prop :=
  ~ (psv_fs_song st == 0)%Q /\ ~ (psv_fs_other st == 0)%Q
  /\ (psv_cue_points st = []
      \/ 0 <= psv_cue_index st < Z.of_nat (length (psv_cue_points st)))
  /\ 1 <= psv_nb_flies st
  /\ 0 <= psv_focal_fly st < psv_nb_flies st
  /\ 0 <= psv_other_fly st < psv_nb_flies st
  /\ (2 <= psv_nb_flies st -> psv_focal_fly st <> psv_other_fly st)
  /\ 2 <= psv_spec_win st.

(** The commands that set [t0]. *)
Definition navigates (c : Command) (st : PSV) : Prop :=
  match c with
  | SingleFrameReverse | JumpReverse | JumpForward | SingleFrameAdvance => True
  | SetPrevCuepoint | SetNextCuepoint => psv_cue_points st <> []
  | _ => False
  end.

(** The window [t0 - span/2, t0 + span/2] lies in the recording. *)
Definition window_inside (st : PSV) : Prop :=
  (0 <= psv_t0 st - psv_span st / 2)%Q
  /\ (psv_t0 st + psv_span st / 2 <= psv_tmax st)%Q.

(** A viewer on two seconds of song at 1 kHz with events at 100 Hz, the
    window at the start of the recording. *)
Definition psv_ex : PSV :=
  {| psv_t0 := 200; psv_span := 400; psv_tmax := 2000;
     psv_fs_song := 1000; psv_fs_other := 100; psv_frame_interval := 10;
     psv_cue_index := 0; psv_cue_points := [500; 1900]%Q;
     psv_focal_fly := 0; psv_other_fly := 1; psv_nb_flies := 2;
     psv_spec_win := 200;
     psv_events := replicate 200 [true; false] |}.

(** * Properties *)

(** ** The result monad *)

Lemma bind_Ok {A B} (f : A -> result B) (r : result A) (b : B) :
  r ≫= f = Ok b -> exists a, r = Ok a /\ f a = Ok b.
Proof. destruct r as [a|e]; simpl; [eauto | discriminate]. Qed.

Ltac inv_bind H :=
  let a := fresh "x" in
  let H1 := fresh "E" in
  apply bind_Ok in H; destruct H as (a & H1 & H).

Tactic Notation "bind_inv" hyp(H) "as" ident(a) ident(E) :=
  apply bind_Ok in H; destruct H as (a & E & H).

Ltac inv_Ok :=
  repeat match goal with
  | H : Ok _ = Ok _ |- _ => injection H as H; try subst
  | H : mret _ = Ok _ |- _ => injection H as H; try subst
  | H : Raised _ = Ok _ |- _ => discriminate H
  end.

(** ** Truncation and division *)

Lemma py_int_inject_Z (z : Z) : py_int (inject_Z z) = z.
Proof. unfold py_int; simpl. apply Z.quot_1_r. Qed.


Lemma py_int_le (x : Q) : (0 <= x)%Q -> (inject_Z (py_int x) <= x)%Q.
Proof.
  destruct x as [n d]. unfold Qle, py_int; simpl. intros Hn.
  rewrite Z.mul_1_r in *.
  pose proof (Z.mul_quot_le n (Zpos d) Hn ltac:(lia)). lia.
Qed.


Lemma py_int_pos_inv (x : Q) : 0 < py_int x -> (0 < x)%Q.
Proof.
  destruct x as [n d]. unfold Qlt, py_int; simpl. intros H.
  rewrite Z.mul_1_r.
  destruct (Z.lt_trichotomy n 0) as [Hn|[Hn|Hn]]; [| |lia].
  - rewrite <- (Z.opp_involutive n), Z.quot_opp_l in H by lia.
    pose proof (Z.quot_pos (- n) (Zpos d)). lia.
  - subst. rewrite Z.quot_0_l in H; lia.
Qed.


Lemma ceil_div_spec (a b k : Z) : 0 < b -> k < ceil_div a b <-> k * b < a.
Proof.
  intros Hb. unfold ceil_div.
  pose proof (Z.div_mod (- a) b ltac:(lia)).
  pose proof (Z.mod_pos_bound (- a) b Hb).
  split; intros; nia.
Qed.

(** ** [np.arange] *)

Lemma length_arange_from (start step : Z) (n : nat) :
  length (arange_from start step n) = n.
Proof. revert start; induction n; intros; simpl; auto. Qed.

Lemma lookup_arange_from (start step : Z) (n i : nat) :
  (i < n)%nat ->
  arange_from start step n !! i = Some (start + Z.of_nat i * step).
Proof.
  revert start i; induction n as [|n IH]; intros start i Hi; [lia|].
  destruct i as [|i]; simpl.
  - f_equal; lia.
  - rewrite IH by lia. f_equal; lia.
Qed.

Lemma elem_of_arange_from (start step : Z) (n : nat) (z : Z) :
  z ∈ arange_from start step n <->
  exists i : nat, (i < n)%nat /\ z = start + Z.of_nat i * step.
Proof.
  rewrite list_elem_of_lookup. split.
  - intros [i Hi]. exists i.
    assert (i < n)%nat as Hlt.
    { apply lookup_lt_Some in Hi. rewrite length_arange_from in Hi. lia. }
    rewrite lookup_arange_from in Hi by lia. split; [lia | congruence].
  - intros (i & Hi & ->). exists i. apply lookup_arange_from; lia.
Qed.


Lemma length_np_arange1 (start stop : Z) :
  length (np_arange1 start stop) = Z.to_nat (stop - start).
Proof. apply length_arange_from. Qed.

(** ** The grid *)

Lemma build_grid_Ok ss lsn sr tsr ltf g :
  build_grid ss lsn sr tsr ltf = Ok g ->
  step g = compute_step sr tsr /\ step g <> 0 /\
  first_sample g = 0 /\
  last_sample g = compute_last_sample_with_frame ss lsn ltf /\
  last_sample_with_frame g = last_sample g /\
  target_samples g =
    arange_from 0 (step g) (Z.to_nat (ceil_div (last_sample g) (step g))) /\
  time g = seconds sr (target_samples g) /\
  sampletime g = seconds sr (np_arange1 0 (last_sample g)).
Proof.
  unfold build_grid, np_arange. intros H.
  destruct (Z.eqb_spec (compute_step sr tsr) 0) as [|Hne]; [discriminate|].
  simpl in H. injection H as <-. simpl.
  rewrite Z.sub_0_r. repeat split; auto.
Qed.

Lemma build_grid_total ss lsn sr tsr ltf :
  compute_step sr tsr <> 0 -> is_Ok (build_grid ss lsn sr tsr ltf).
Proof.
  intros Hne. unfold build_grid, np_arange.
  destruct (Z.eqb_spec (compute_step sr tsr) 0); [contradiction|].
  simpl. eexists; reflexivity.
Qed.

Lemma build_grid_zero_step ss lsn sr tsr ltf :
  compute_step sr tsr = 0 ->
  build_grid ss lsn sr tsr ltf = Raised ZeroDivisionError.
Proof. intros H. unfold build_grid, np_arange. rewrite H. reflexivity. Qed.

Lemma lookup_target_samples ss lsn sr tsr ltf g (i : nat) :
  build_grid ss lsn sr tsr ltf = Ok g ->
  (i < length (target_samples g))%nat ->
  target_samples g !! i = Some (Z.of_nat i * step g).
Proof.
  intros H Hi. apply build_grid_Ok in H as (_ & _ & _ & _ & _ & Ht & _).
  rewrite Ht in *. rewrite length_arange_from in Hi.
  rewrite lookup_arange_from by lia. f_equal; lia.
Qed.

Lemma length_target_samples ss lsn sr tsr ltf g :
  build_grid ss lsn sr tsr ltf = Ok g ->
  Z.of_nat (length (target_samples g)) =
    Z.max 0 (ceil_div (last_sample g - first_sample g) (step g)).
Proof.
  intros H. apply build_grid_Ok in H as (_ & _ & -> & _ & _ & Ht & _).
  rewrite Ht, length_arange_from, Z.sub_0_r. lia.
Qed.

Lemma length_time ss lsn sr tsr ltf g :
  build_grid ss lsn sr tsr ltf = Ok g ->
  length (time g) = length (target_samples g).
Proof.
  intros H. apply build_grid_Ok in H as (_ & _ & _ & _ & _ & _ & -> & _).
  unfold seconds. apply length_map.
Qed.

(** With a positive step the grid holds the multiples of the step below
    [last_sample]. *)
Lemma elem_of_target_samples ss lsn sr tsr ltf g (z : Z) :
  build_grid ss lsn sr tsr ltf = Ok g -> 0 < step g ->
  z ∈ target_samples g <->
  exists i : Z, 0 <= i /\ z = i * step g /\ z < last_sample g.
Proof.
  intros H Hstep. apply build_grid_Ok in H as (_ & _ & _ & _ & _ & -> & _).
  rewrite elem_of_arange_from. split.
  - intros (i & Hi & ->). exists (Z.of_nat i). repeat split; try lia.
    apply ceil_div_spec; lia.
  - intros (i & Hi & -> & Hlt). exists (Z.to_nat i). split; [|lia].
    apply ceil_div_spec in Hlt; lia.
Qed.

(** ** Claims on the grid *)

(** C1 (as amended). The grid step is [int(sampling_rate /
    target_sampling_rate)], a truncation without lower clamp. Whenever it
    is at least 1 the grid is built, its samples are [first_sample + i *
    step], and their number is [ceil((last_sample - first_sample) / step)],
    or 0 when that is negative. *)
Theorem grid_uniform ss lsn sr tsr ltf :
  1 <= compute_step sr tsr ->
  exists g, build_grid ss lsn sr tsr ltf = Ok g /\
    step g = py_int (sr / tsr) /\
    (forall i : nat, (i < length (target_samples g))%nat ->
       target_samples g !! i = Some (first_sample g + Z.of_nat i * step g)) /\
    Z.of_nat (length (target_samples g)) =
      Z.max 0 (ceil_div (last_sample g - first_sample g) (step g)).
Proof.
  intros Hstep.
  destruct (build_grid_total ss lsn sr tsr ltf) as [g Hg]; [lia|].
  exists g. split; [exact Hg|].
  pose proof (build_grid_Ok _ _ _ _ _ _ Hg) as (Hs & _ & H0 & _).
  split; [exact Hs|]. split.
  - intros i Hi. rewrite H0. erewrite lookup_target_samples by eauto. f_equal; lia.
  - eapply length_target_samples; eauto.
Qed.

Lemma grid_uniform_witness :
  1 <= compute_step 10000 1000 /\
  exists g, build_grid ss_ex 1000 10000 1000 6 = Ok g /\
    step g = py_int (10000 / 1000) /\
    (forall i : nat, (i < length (target_samples g))%nat ->
       target_samples g !! i = Some (first_sample g + Z.of_nat i * step g)) /\
    Z.of_nat (length (target_samples g)) =
      Z.max 0 (ceil_div (last_sample g - first_sample g) (step g)).
Proof.
  split; [vm_compute; discriminate|].
  apply (grid_uniform ss_ex 1000 10000 1000 6). vm_compute; discriminate.
Defined.

(** C1 as stated fails: at 10 kHz resampled to 6 kHz the step is
    [int(1.66..) = 1], not [max(1, round(1.66..)) = 2]; and at 1 kHz
    resampled to 3 kHz it is 0, not clamped to 1, and no grid is built. *)
Lemma grid_step_is_truncated :
  compute_step 10000 6000 = 1 /\
  Z.max 1 (py_round (10000 / 6000)) = 2 /\
  compute_step 1000 3000 = 0 /\
  Z.max 1 (py_round (1000 / 3000)) = 1 /\
  build_grid ss_ex 1000 1000 3000 6 = Raised ZeroDivisionError.
Proof. repeat split; vm_compute; reflexivity. Qed.

(** Every grid sample lies strictly below [last_sample], the last
    sample number of the recording and the sample of the last frame. *)
Lemma target_samples_bounded ss lsn sr tsr ltf g s :
  build_grid ss lsn sr tsr ltf = Ok g -> 0 < step g ->
  s ∈ target_samples g ->
  s < last_sample g /\ s < lsn /\ (inject_Z s < ss_sample ss (ltf - 1))%Q.
Proof.
  intros Hg Hstep Hs.
  pose proof (build_grid_Ok _ _ _ _ _ _ Hg) as (_ & _ & _ & Hl & _).
  apply (elem_of_target_samples _ _ _ _ _ _ _ Hg Hstep) in Hs
    as (i & Hi & -> & Hlt).
  set (q := Qmin (inject_Z lsn) (ss_sample ss (ltf - 1))) in *.
  assert (0 < py_int q) as Hpos by (unfold compute_last_sample_with_frame in Hl; fold q in Hl; nia).
  assert (inject_Z (i * step g) < q)%Q as Hq.
  { eapply Qlt_le_trans; [|apply py_int_le, Qlt_le_weak, py_int_pos_inv, Hpos].
    rewrite <- Zlt_Qlt. unfold compute_last_sample_with_frame in Hl. fold q in Hl. lia. }
  split; [lia|]. split.
  - rewrite Zlt_Qlt. eapply Qlt_le_trans; [exact Hq|]. apply Q.le_min_l.
  - eapply Qlt_le_trans; [exact Hq|]. apply Q.le_min_r.
Qed.

(** C8 (as amended). [last_sample] is the minimum of the last sample
    number of the recording and the sample of frame [last_tracked_frame -
    1], truncated to an integer; every grid sample lies strictly below
    both. *)
Theorem grid_upper_bound ss lsn sr tsr ltf g :
  build_grid ss lsn sr tsr ltf = Ok g -> 0 < step g ->
  last_sample g =
    py_int (Qmin (inject_Z lsn) (ss_sample ss (ltf - 1))) /\
  forall s, s ∈ target_samples g ->
    s < last_sample g /\ s < lsn /\ (inject_Z s < ss_sample ss (ltf - 1))%Q.
Proof.
  intros Hg Hstep.
  pose proof (build_grid_Ok _ _ _ _ _ _ Hg) as (_ & _ & _ & Hl & _).
  split; [exact Hl|]. intros s.
  apply (target_samples_bounded _ _ _ _ _ _ _ Hg Hstep).
Qed.

Lemma grid_upper_bound_witness :
  exists g, build_grid ss_ex 1000 100 2 6 = Ok g /\ 0 < step g /\
    last_sample g = 500 /\
    forall s, s ∈ target_samples g ->
      s < last_sample g /\ s < 1000 /\ (inject_Z s < ss_sample ss_ex (6 - 1))%Q.
Proof.
  eexists. split; [vm_compute; reflexivity|]. split; [vm_compute; reflexivity|].
  split; [reflexivity|].
  refine (proj2 (grid_upper_bound ss_ex 1000 100 2 6 _ _ _));
    vm_compute; reflexivity.
Defined.

(** C8 as stated fails: with frames at samples 0, 100, 200, ... and
    [last_tracked_frame = 6] the grid ends at sample 500, the sample of
    frame 5, not at [sample(last_tracked_frame) = 600]. *)
Lemma last_sample_is_of_previous_frame :
  exists g, build_grid ss_ex 1000 100 2 6 = Ok g /\
    last_sample g = 500 /\
    py_int (Qmin (inject_Z 1000) (ss_sample ss_ex 6)) = 600 /\
    last_sample g <> py_int (Qmin (inject_Z 1000) (ss_sample ss_ex 6)).
Proof.
  eexists. split; [vm_compute; reflexivity|]. vm_compute. repeat split. discriminate.
Qed.

(** ** Interpolation *)

Lemma Qlt_bool_iff (x y : Q) : Qlt_bool x y = true <-> (x < y)%Q.
Proof.
  unfold Qlt_bool. rewrite negb_true_iff. split.
  - intros H. apply Qnot_le_lt. intros Hle.
    apply Qle_bool_iff in Hle. congruence.
  - intros H. destruct (Qle_bool y x) eqn:E; [|reflexivity].
    apply Qle_bool_iff in E. exfalso. exact (Qlt_not_le _ _ H E).
Qed.

Lemma Qlt_bool_false_iff (x y : Q) : Qlt_bool x y = false <-> (y <= x)%Q.
Proof.
  unfold Qlt_bool. rewrite negb_false_iff. apply Qle_bool_iff.
Qed.

Lemma sort_knots_sorted {A} (l : list (Q * A)) :
  nondecreasing_Q (l.*1) -> sort_knots l = l.
Proof.
  induction l as [|h t IH]; [reflexivity|]. intros Hs.
  unfold sort_knots in *. simpl. rewrite IH.
  - destruct t as [|h2 t]; [reflexivity|]. simpl.
    destruct Hs as [Hle _]. apply Qle_bool_iff in Hle. simpl in Hle.
    rewrite Hle. reflexivity.
  - destruct t as [|h2 t]; [exact I|]. apply Hs.
Qed.

Lemma frame_samples_sorted (ss : SampStamp) (a : Z) (n : nat) :
  monotone_timing ss ->
  nondecreasing_Q (map (ss_sample ss) (arange_from a 1 n)).
Proof.
  intros Hm. revert a. induction n as [|n IH]; intros a; [exact I|].
  destruct n as [|n]; [exact I|].
  split; [apply Hm; lia|]. apply (IH (a + 1)).
Qed.

Lemma head_arange_from (a st : Z) (n : nat) :
  head (arange_from a st (S n)) = Some a.
Proof. reflexivity. Qed.

Lemma last_arange_from (a st : Z) (n : nat) :
  last (arange_from a st (S n)) = Some (a + Z.of_nat n * st).
Proof.
  revert a. induction n as [|n IH]; intros a.
  - simpl. f_equal; lia.
  - change (arange_from a st (S (S n))) with (a :: arange_from (a + st) st (S n)).
    rewrite last_cons, IH. f_equal; lia.
Qed.

(** Over a monotone timing model the knots are already sorted, and
    [interp1d] keeps them as they are. *)
Lemma interp1d_frames {A} pf (ss : SampStamp) (a b : Z) (y : list A) ip :
  monotone_timing ss ->
  interp1d pf (map (ss_sample ss) (np_arange1 a b)) y = Ok ip ->
  ip_x ip = map (ss_sample ss) (np_arange1 a b) /\ ip_y ip = y /\
  length y = Z.to_nat (b - a).
Proof.
  intros Hm. unfold interp1d.
  destruct (Nat.eqb_spec (length (map (ss_sample ss) (np_arange1 a b))) (length y))
    as [Hlen|]; [simpl|discriminate].
  destruct (Nat.ltb _ _); [discriminate|].
  intros [= <-]. simpl.
  rewrite sort_knots_sorted.
  - rewrite fst_zip, snd_zip by lia.
    rewrite length_map, length_np_arange1 in Hlen. auto.
  - rewrite fst_zip by lia. apply frame_samples_sorted, Hm.
Qed.

Lemma searchsorted_left_mono (a : list Q) (v v' : Q) :
  (v <= v')%Q -> (searchsorted_left a v <= searchsorted_left a v')%nat.
Proof.
  intros Hv. induction a as [|h t IH]; simpl; [lia|].
  destruct (Qlt_bool h v) eqn:E; [|lia].
  apply Qlt_bool_iff in E.
  assert (Qlt_bool h v' = true) as ->; [|lia].
  apply Qlt_bool_iff. eapply Qlt_le_trans; eauto.
Qed.

Lemma out_of_bounds_frames (ss : SampStamp) (a b : Z) (x : Q) :
  a < b ->
  out_of_bounds (map (ss_sample ss) (np_arange1 a b)) x = false <->
  (ss_sample ss a <= x)%Q /\ (x <= ss_sample ss (b - 1))%Q.
Proof.
  intros Hab. unfold out_of_bounds, np_arange1.
  destruct (Z.to_nat (b - a)) as [|n] eqn:En; [lia|].
  change (map (ss_sample ss) ?l) with (ss_sample ss <$> l).
  rewrite fmap_last, last_arange_from. simpl.
  replace (a + Z.of_nat n * 1) with (b - 1) by lia.
  rewrite orb_false_iff, !Qlt_bool_false_iff. reflexivity.
Qed.

Lemma out_of_bounds_empty (x : Q) : out_of_bounds [] x = true.
Proof. reflexivity. Qed.

Lemma astype_uintp_inject_Z (z : Z) :
  0 <= z < 2 ^ 64 -> astype_uintp (inject_Z z) = z.
Proof.
  intros Hz. unfold astype_uintp. rewrite py_int_inject_Z.
  apply Z.mod_small. exact Hz.
Qed.

Lemma out_of_bounds_outside (ss : SampStamp) (a b : Z) (x : Q) :
  (x < ss_sample ss a)%Q \/ (ss_sample ss (b - 1) < x)%Q ->
  out_of_bounds (map (ss_sample ss) (np_arange1 a b)) x = true.
Proof.
  intros Hx. destruct (Z_lt_le_dec a b) as [Hab|Hab].
  - destruct (out_of_bounds _ x) eqn:E; [reflexivity|].
    apply out_of_bounds_frames in E as [H1 H2]; [|exact Hab].
    destruct Hx as [Hx|Hx]; exfalso; eapply Qlt_not_le; eauto.
  - unfold np_arange1. replace (Z.to_nat (b - a)) with O by lia. reflexivity.
Qed.

Lemma nearest_frame_Ok pf ss ftf ltf targets nf :
  monotone_timing ss ->
  nearest_frame pf ss ftf ltf targets = Ok nf ->
  exists ip,
    ip_x ip = map (ss_sample ss) (np_arange1 ftf ltf) /\
    ip_y ip = np_arange1 ftf ltf /\
    nf = map (fun s => astype_uintp_nan pf (call_nearest ip (inject_Z s))) targets.
Proof.
  intros Hm H. unfold nearest_frame in H. inv_bind H. inv_Ok.
  apply interp1d_frames in E as (Hx & Hy & _); [|exact Hm].
  exists x. auto.
Qed.

(** Outside the span of the frame samples the interpolator answers NaN,
    and the cast stores whatever integer the platform makes of it. *)
Lemma nearest_frame_outside pf ss ftf ltf targets nf (i : nat) (s : Z) :
  monotone_timing ss ->
  nearest_frame pf ss ftf ltf targets = Ok nf ->
  targets !! i = Some s ->
  (inject_Z s < ss_sample ss ftf)%Q \/ (ss_sample ss (ltf - 1) < inject_Z s)%Q ->
  nf !! i = Some (nan_as_uintp pf).
Proof.
  intros Hm H Hi Hs.
  apply nearest_frame_Ok in H as (ip & Hx & Hy & ->); [|exact Hm].
  change (map ?f targets) with (f <$> targets).
  rewrite list_lookup_fmap, Hi. simpl. f_equal.
  unfold call_nearest. rewrite Hx, out_of_bounds_outside by exact Hs.
  reflexivity.
Qed.

(** Inside the span the nearest frame is [first_tracked_frame] plus the
    number of midpoints below the sample. *)
Lemma nearest_frame_inside pf ss ftf ltf targets nf (i : nat) (s : Z) :
  monotone_timing ss -> 0 <= ftf -> ltf <= 2 ^ 64 -> ftf < ltf ->
  nearest_frame pf ss ftf ltf targets = Ok nf ->
  targets !! i = Some s ->
  (ss_sample ss ftf <= inject_Z s)%Q ->
  (inject_Z s <= ss_sample ss (ltf - 1))%Q ->
  nf !! i = Some (ftf + Z.of_nat
    (Nat.min (searchsorted_left
                (midpoints (map (ss_sample ss) (np_arange1 ftf ltf)))
                (inject_Z s))
             (Z.to_nat (ltf - ftf) - 1))).
Proof.
  intros Hm H0 H64 Hlt H Hi Hlo Hhi.
  apply nearest_frame_Ok in H as (ip & Hx & Hy & ->); [|exact Hm].
  change (map ?f targets) with (f <$> targets).
  rewrite list_lookup_fmap, Hi. simpl. f_equal.
  unfold call_nearest. rewrite Hx, Hy.
  rewrite (proj2 (out_of_bounds_frames ss ftf ltf (inject_Z s) Hlt)) by auto.
  rewrite length_map, length_np_arange1.
  set (k := Nat.min _ _).
  assert (k < Z.to_nat (ltf - ftf))%nat as Hk by (unfold k; lia).
  unfold np_arange1. rewrite lookup_arange_from by exact Hk. simpl.
  rewrite astype_uintp_inject_Z by lia. f_equal; lia.
Qed.

Lemma ss_ex_monotone : monotone_timing ss_ex.
Proof.
  intros f g Hfg. simpl. rewrite <- Zle_Qle. lia.
Qed.

(** ** Claims on the nearest frame *)

(** C2 (code bug). For the frames 2..5 at samples 200..500, the grid
    samples 0 and 600 lie outside the span: the interpolator answers NaN
    ([None]) without raising, but [nearest_frame] holds on every platform
    an integer [v], the cast of NaN, where the sample 300 holds frame 3 -
    no missing value reaches the coordinate. *)
Theorem nearest_frame_casts_nan_away (v : Z) :
  let pf := {| nan_as_uintp := v; interp1d_min_entries := 2 |} in
  (exists ip,
     interp1d pf (map (ss_sample ss_ex) (np_arange1 2 6)) (np_arange1 2 6) = Ok ip /\
     call_nearest ip (inject_Z 0) = None /\
     call_nearest ip (inject_Z 600) = None) /\
  nearest_frame pf ss_ex 2 6 [0; 300; 600] = Ok [v; 3; v].
Proof.
  split; [eexists; split; [vm_compute; reflexivity|split; vm_compute; reflexivity]|].
  vm_compute. reflexivity.
Qed.

(** C7 (as amended). Over a monotone timing model, [nearest_frame] is
    non-decreasing along the grid from the first grid point that is not
    before the sample of the first tracked frame. *)
Theorem nearest_frame_nondecreasing pf ss lsn sr tsr ftf ltf g nf
    (i j : nat) (s a b : Z) :
  monotone_timing ss -> 0 <= ftf -> ltf <= 2 ^ 64 -> 0 < step g ->
  build_grid ss lsn sr tsr ltf = Ok g ->
  nearest_frame pf ss ftf ltf (target_samples g) = Ok nf ->
  (i <= j)%nat ->
  target_samples g !! i = Some s ->
  (ss_sample ss ftf <= inject_Z s)%Q ->
  nf !! i = Some a -> nf !! j = Some b ->
  a <= b.
Proof.
  intros Hm H0 H64 Hstep Hg Hnf Hij Hi Hlo Ha Hb.
  assert (length nf = length (target_samples g)) as Hlen.
  { destruct (nearest_frame_Ok _ _ _ _ _ _ Hm Hnf) as (ip & _ & _ & ->).
    apply length_map. }
  assert (j < length (target_samples g))%nat as Hj.
  { apply lookup_lt_Some in Hb. lia. }
  pose proof (lookup_target_samples _ _ _ _ _ _ j Hg Hj) as Hsj.
  assert (i < length (target_samples g))%nat as Hi' by lia.
  rewrite (lookup_target_samples _ _ _ _ _ _ i Hg Hi') in Hi.
  injection Hi as <-.
  pose proof (lookup_target_samples _ _ _ _ _ _ i Hg Hi') as Hsi.
  pose proof (fun s => target_samples_bounded _ _ _ _ _ _ s Hg Hstep) as Hub.
  assert (forall k s', target_samples g !! k = Some s' ->
            (inject_Z s' <= ss_sample ss (ltf - 1))%Q) as Hhi.
  { intros k s' Hk. apply Qlt_le_weak.
    apply (Hub s'). apply list_elem_of_lookup. eauto. }
  assert (inject_Z (Z.of_nat i * step g) <= inject_Z (Z.of_nat j * step g))%Q
    as Hss by (rewrite <- Zle_Qle; nia).
  assert (ftf < ltf) as Hlt.
  { destruct (Z_lt_le_dec ftf ltf) as [|Hge]; [assumption|exfalso].
    assert (inject_Z (Z.of_nat i * step g) < ss_sample ss (ltf - 1))%Q as H1.
    { apply Hub, list_elem_of_lookup. eauto. }
    assert (ss_sample ss (ltf - 1) <= ss_sample ss ftf)%Q as H2
      by (apply Hm; lia).
    eapply Qlt_not_le; [exact H1|]. eapply Qle_trans; eauto. }
  erewrite nearest_frame_inside in Ha; eauto.
  erewrite nearest_frame_inside in Hb; eauto;
    [|eapply Qle_trans; [exact Hlo|exact Hss]].
  injection Ha as <-. injection Hb as <-.
  pose proof (searchsorted_left_mono
    (midpoints (map (ss_sample ss) (np_arange1 ftf ltf))) _ _ Hss).
  lia.
Qed.

Lemma nearest_frame_nondecreasing_witness :
  exists g nf,
    monotone_timing ss_ex /\
    build_grid ss_ex 1000 100 2 6 = Ok g /\
    nearest_frame pf_x86 ss_ex 2 6 (target_samples g) = Ok nf /\
    target_samples g !! 4%nat = Some 200 /\
    nf !! 4%nat = Some 2 /\ nf !! 9%nat = Some 4 /\ 2 <= 4.
Proof.
  eexists; eexists.
  split; [exact ss_ex_monotone|].
  split; [vm_compute; reflexivity|].
  split; [vm_compute; reflexivity|].
  split; [reflexivity|]. split; [reflexivity|]. split; [reflexivity|].
  eapply (nearest_frame_nondecreasing pf_x86 ss_ex 1000 100 2 2 6 _ _ 4 9 200 2 4).
  all: try exact ss_ex_monotone.
  all: try (vm_compute; reflexivity).
  all: try (vm_compute; reflexivity).
  all: try (vm_compute; discriminate).
  all: lia.
Defined.

(** C7 as stated fails where NumPy casts NaN to [2^63]: the grid starts
    at sample 0, before the sample 200 of the first tracked frame, and
    [nearest_frame] starts with [2^63] and drops to frame 2. *)
Lemma nearest_frame_not_monotone :
  monotone_timing ss_ex /\
  exists g nf,
    build_grid ss_ex 1000 100 2 6 = Ok g /\
    nearest_frame pf_x86 ss_ex 2 6 (target_samples g) = Ok nf /\
    nf = [2 ^ 63; 2 ^ 63; 2 ^ 63; 2 ^ 63; 2; 2; 3; 3; 4; 4] /\
    ~ nondecreasing nf.
Proof.
  split; [exact ss_ex_monotone|].
  eexists; eexists.
  split; [vm_compute; reflexivity|].
  split; [vm_compute; reflexivity|].
  split; [reflexivity|].
  intros H. specialize (H 0%nat 4%nat _ _ ltac:(lia) eq_refl eq_refl).
  vm_compute in H. apply H. reflexivity.
Qed.

(** ** The binarizer *)

Lemma elem_of_insert_unique (z z' : Z) (l : list Z) :
  z' ∈ insert_unique z l <-> z' = z \/ z' ∈ l.
Proof.
  induction l as [|h t IH]; simpl.
  - rewrite list_elem_of_singleton, elem_of_nil. tauto.
  - destruct (Z.ltb_spec z h).
    + rewrite !elem_of_cons. tauto.
    + destruct (Z.eqb_spec z h) as [->|].
      * rewrite !elem_of_cons. tauto.
      * rewrite !elem_of_cons, IH. tauto.
Qed.

Lemma elem_of_np_unique (z : Z) (l : list Z) : z ∈ np_unique l <-> z ∈ l.
Proof.
  induction l as [|h t IH]; [reflexivity|].
  unfold np_unique in *. simpl.
  rewrite elem_of_insert_unique, elem_of_cons, IH. reflexivity.
Qed.


Lemma kept_iff (step lswf e : Z) :
  0 < step ->
  Qlt_bool (inject_Z e) (inject_Z lswf / inject_Z step) = true <->
  e * step < lswf.
Proof.
  intros Hstep. rewrite Qlt_bool_iff.
  destruct step as [|p|p]; try lia.
  unfold Qlt; simpl. rewrite !Z.mul_1_r.
  replace (Z.pos (1 * p)) with (Z.pos p) by lia. reflexivity.
Qed.

Lemma bin_of_range (step s : Z) : 0 <= bin_of step s < 2 ^ 64.
Proof. unfold bin_of, astype_uintp. apply Z.mod_pos_bound. lia. Qed.

Lemma elem_of_event_times (step lswf : Z) (samples : list Z) (e : Z) :
  0 < step ->
  e ∈ event_times step lswf samples <->
  (exists s, s ∈ samples /\ e = bin_of step s) /\ e * step < lswf.
Proof.
  intros Hstep. unfold event_times.
  rewrite list_elem_of_In, filter_In, <- list_elem_of_In.
  rewrite elem_of_np_unique, kept_iff by exact Hstep.
  change (map ?f samples) with (f <$> samples).
  rewrite list_elem_of_fmap.
  split; intros [(s & H1 & H2) H3]; (split; [exists s; auto | exact H3]).
Qed.

Lemma event_times_nonneg (step lswf : Z) (samples : list Z) (e : Z) :
  e ∈ event_times step lswf samples -> 0 <= e.
Proof.
  unfold event_times.
  rewrite list_elem_of_In, filter_In, <- list_elem_of_In.
  rewrite elem_of_np_unique.
  change (map ?f samples) with (f <$> samples).
  rewrite list_elem_of_fmap. intros [(s & -> & _) _]. apply bin_of_range.
Qed.

Lemma shape_np_zeros (rows cols : nat) : shape (np_zeros rows cols) rows cols.
Proof.
  split; [apply length_replicate|].
  apply Forall_replicate, length_replicate.
Qed.



Lemma set_true_total (m : Matrix) (rows cols row col : nat) :
  shape m rows cols -> (row < rows)%nat -> (col < cols)%nat ->
  exists m', set_true m row col = Ok m' /\ shape m' rows cols.
Proof.
  intros [Hlen Hall] Hrow Hcol. unfold set_true.
  destruct (lookup_lt_is_Some_2 m row ltac:(lia)) as [r Hr]. rewrite Hr.
  pose proof (Forall_lookup_1 _ _ _ _ Hall Hr) as Hlr. simpl in Hlr.
  rewrite decide_True by lia. eexists. split; [reflexivity|].
  split; [rewrite length_insert; exact Hlen|].
  apply Forall_insert; [exact Hall|]. rewrite length_insert. exact Hlr.
Qed.


Lemma write_events_total (m : Matrix) (rows cols : nat) (times : list Z)
    (cnt : nat) :
  shape m rows cols -> (cnt < cols)%nat ->
  (forall e, e ∈ times -> (Z.to_nat e < rows)%nat) ->
  exists m', write_events m times cnt = Ok m' /\ shape m' rows cols.
Proof.
  revert m. induction times as [|e rest IH]; intros m Hs Hc Hb; simpl.
  - eauto.
  - destruct (set_true_total m rows cols (Z.to_nat e) cnt Hs) as (m1 & -> & Hs1);
      [apply Hb; left|exact Hc|]. simpl.
    apply IH; auto. intros e' He'. apply Hb. right. exact He'.
Qed.


Lemma bin_loop_total (step lswf : Z) (events : list (string * list Z))
    (cnt rows cols : nat) (m : Matrix) :
  shape m rows cols -> (cnt + length events <= cols)%nat ->
  (forall key samples e, (key, samples) ∈ events ->
     e ∈ event_times step lswf samples -> (Z.to_nat e < rows)%nat) ->
  exists m', bin_loop step lswf events cnt m = Ok m' /\ shape m' rows cols.
Proof.
  revert cnt m. induction events as [|[key0 samples0] rest IH];
    intros cnt m Hs Hc Hb; simpl.
  - eauto.
  - simpl in Hc.
    destruct (write_events_total m rows cols (event_times step lswf samples0) cnt Hs)
      as (m1 & -> & Hs1); [lia| |].
    { intros e He. eapply Hb; [left|exact He]. }
    simpl. apply IH; [exact Hs1|lia|].
    intros key samples e Hin He. eapply Hb; [right; exact Hin|exact He].
Qed.



Lemma event_times_in_grid ss lsn sr tsr ltf g samples e :
  build_grid ss lsn sr tsr ltf = Ok g -> 0 < step g ->
  e ∈ event_times (step g) (last_sample_with_frame g) samples ->
  0 <= e < Z.of_nat (length (time g)).
Proof.
  intros Hg Hstep He.
  pose proof (event_times_nonneg _ _ _ _ He) as H0.
  apply elem_of_event_times in He as [_ Hk]; [|exact Hstep].
  rewrite (length_time _ _ _ _ _ _ Hg).
  apply build_grid_Ok in Hg as (_ & _ & _ & _ & Hl & -> & _).
  rewrite length_arange_from. rewrite Hl in Hk.
  apply ceil_div_spec in Hk; [|exact Hstep]. lia.
Qed.

Lemma song_events_np_total ss lsn sr tsr ltf g events :
  build_grid ss lsn sr tsr ltf = Ok g -> 0 < step g ->
  exists m,
    song_events_np (step g) (last_sample_with_frame g) (length (time g)) events
      = Ok m /\
    shape m (length (time g)) (length events).
Proof.
  intros Hg Hstep. unfold song_events_np.
  apply bin_loop_total; [apply shape_np_zeros|lia|].
  intros key samples e _ He.
  pose proof (event_times_in_grid _ _ _ _ _ _ _ _ Hg Hstep He). lia.
Qed.




(** ** Claims on the binarizer *)

(** C6. On the grid of [assemble] every kept bin lies in [0, grid
    length), every event whose bin is at or beyond the grid length is
    dropped, and the writes into the [len(time)] by [len(events)] matrix
    never leave it: the binarizer returns a matrix of that shape. *)
Theorem events_within_grid ss lsn sr tsr ltf g events :
  build_grid ss lsn sr tsr ltf = Ok g -> 0 < step g ->
  (forall samples e,
     e ∈ event_times (step g) (last_sample_with_frame g) samples ->
     0 <= e < Z.of_nat (length (time g))) /\
  (forall samples s,
     s ∈ samples -> Z.of_nat (length (time g)) <= bin_of (step g) s ->
     bin_of (step g) s ∉
       event_times (step g) (last_sample_with_frame g) samples) /\
  exists m,
    song_events_np (step g) (last_sample_with_frame g) (length (time g)) events
      = Ok m /\
    shape m (length (time g)) (length events).
Proof.
  intros Hg Hstep. split; [|split].
  - intros samples e. apply (event_times_in_grid _ _ _ _ _ _ _ _ Hg Hstep).
  - intros samples s _ Hge Hin.
    pose proof (event_times_in_grid _ _ _ _ _ _ _ _ Hg Hstep Hin). lia.
  - apply (song_events_np_total _ _ _ _ _ _ _ Hg Hstep).
Qed.

Lemma events_within_grid_witness :
  exists g,
    build_grid ss_ex 1000 100 2 6 = Ok g /\ 0 < step g /\
    event_times (step g) (last_sample_with_frame g) [205; 9999] = [4] /\
    exists m,
      song_events_np (step g) (last_sample_with_frame g) (length (time g))
                     [("pulse"%string, [205; 9999])] = Ok m /\
      shape m (length (time g)) 1.
Proof.
  eexists. split; [vm_compute; reflexivity|].
  split; [vm_compute; reflexivity|].
  split; [vm_compute; reflexivity|].
  refine (proj2 (proj2 (events_within_grid ss_ex 1000 100 2 6 _
                          [("pulse"%string, [205; 9999])] _ _)));
    vm_compute; reflexivity.
Defined.









(** ** The blocks of [assemble] *)

Lemma xr_DataArray_Ok data dims time nf a :
  xr_DataArray data dims time nf = Ok a ->
  da_data a = data /\ da_time a = time /\ da_nearest_frame a = nf.
Proof.
  unfold xr_DataArray. destruct (_ && _); [|discriminate].
  intros [= <-]. auto.
Qed.



Lemma song_block_total sampletime with_song keep has_raw
    (d : gmap string DataArray) :
  (with_song = true -> keep = true -> has_raw = true) ->
  is_Ok (song_block sampletime with_song keep has_raw d).
Proof.
  intros H. unfold song_block. destruct with_song; [|eexists; reflexivity].
  simpl. destruct keep; [|eexists; reflexivity].
  rewrite H by reflexivity. eexists; reflexivity.
Qed.

Lemma events_block_Ok g sr manual seg nft (d d' : gmap string DataArray) :
  events_block g sr manual seg nft d = Ok d' ->
  seg = None /\
  (forall k : string, k <> "song_events"%string -> d' !! k = d !! k) /\
  (forall a, d' !! "song_events"%string = Some a ->
     d !! "song_events"%string = None -> da_time a = time g).
Proof.
  unfold events_block. intros H. bind_inv H as ev0 Hev0. bind_inv H as ev Hev.
  destruct seg as [res|]; [discriminate|]. inv_Ok.
  split; [reflexivity|].
  destruct (_ || _).
  - bind_inv H as m Hm. bind_inv H as da Hda. inv_Ok.
    apply xr_DataArray_Ok in Hda as (_ & Ht & _).
    split.
    + intros k Hk. rewrite lookup_insert_ne by congruence. reflexivity.
    + intros a Ha _. rewrite lookup_insert_eq in Ha. congruence.
  - inv_Ok. split; [auto|]. intros a Ha Hn. congruence.
Qed.

(** With an automatic segmentation the block raises: [NameError], unless
    expanding the manual annotations has already raised. *)
Lemma events_block_segmentation g sr manual res nft (d : gmap string DataArray) :
  exists e, events_block g sr manual (Some res) nft d = Raised e /\
    ((manual = None \/ exists evs, manual = Some evs /\ is_Ok (manual_events sr evs)) ->
     e = NameError).
Proof.
  unfold events_block. destruct manual as [evs|]; simpl.
  - destruct (manual_events sr evs) as [events|e] eqn:E; simpl.
    + exists NameError. auto.
    + exists e. split; [reflexivity|].
      intros [|(evs' & [= <-] & [x Hx])]; congruence.
  - exists NameError. auto.
Qed.

Lemma expand_all_total (evs : list (string * EventArray Z)) :
  expandable evs -> is_Ok (expand_all evs).
Proof.
  induction evs as [|[key val] rest IH]; intros He; simpl.
  - eexists; reflexivity.
  - assert (is_Ok (expand_events val)) as [samples ->].
    { destruct val as [t|[|p t]]; simpl; try (eexists; reflexivity).
      exfalso. apply (He key). left. }
    simpl. destruct IH as [rest' ->].
    + intros k Hk. apply (He k). right. exact Hk.
    + eexists; reflexivity.
Qed.

Lemma manual_events_total sr (evs : list (string * EventArray Q)) :
  expandable evs -> is_Ok (manual_events sr evs).
Proof.
  intros He. apply expand_all_total. intros key Hin.
  change (map ?f evs) with (f <$> evs) in Hin.
  apply list_elem_of_fmap in Hin as ([k v] & Heq & Hin). simpl in Heq.
  injection Heq as -> Hv. destruct v as [t|[|p t]]; simpl in Hv; try discriminate.
  apply (He k). exact Hin.
Qed.


Lemma nearest_frame_total pf ss ftf ltf targets :
  (interp1d_min_entries pf <= Z.to_nat (ltf - ftf))%nat ->
  is_Ok (nearest_frame pf ss ftf ltf targets).
Proof.
  intros Hmin. unfold nearest_frame, interp1d.
  rewrite length_map, Nat.eqb_refl. simpl.
  rewrite length_np_arange1.
  destruct (Nat.ltb_spec (Z.to_nat (ltf - ftf)) (interp1d_min_entries pf)); [lia|].
  simpl. eexists; reflexivity.
Qed.




(** Before the sample of the first frame, and after that of the last, a
    resampled row is NaN. *)
Lemma resample_outside pf ss (a b : Z) pos targets rows (i : nat) (s : Z) :
  monotone_timing ss ->
  resample pf ss (np_arange1 a b) pos targets = Ok rows ->
  targets !! i = Some s ->
  (inject_Z s < ss_sample ss a)%Q \/ (ss_sample ss (b - 1) < inject_Z s)%Q ->
  rows !! i = Some None.
Proof.
  intros Hm H Hi Hs. unfold resample in H. bind_inv H as ip Hip. inv_Ok.
  apply interp1d_frames in Hip as (Hx & _ & _); [|exact Hm].
  change (map ?f targets) with (f <$> targets).
  rewrite list_lookup_fmap, Hi. simpl. f_equal.
  unfold call_linear. rewrite Hx, out_of_bounds_outside by exact Hs.
  reflexivity.
Qed.

Lemma tracks_block_Ok pf ss g r t ftf ltf l l' :
  tracks_block pf ss g r (Some t) ftf ltf l = Ok l' ->
  exists a,
    l_dataset_data l' = <["body_positions"%string := a]> (l_dataset_data l) /\
    da_time a = l_time l' /\
    (r = true ->
       l_time l' = l_time l /\
       exists rows,
         resample pf ss (np_arange1 ftf ltf) (body_pos t) (target_samples g)
           = Ok rows /\
         da_data a = Positions rows) /\
    (r = false ->
       l_time l' = map (ss_frame_time ss) (l_frame_numbers l)).
Proof.
  unfold tracks_block. intros H. bind_inv H as p Hp. destruct p as [rows l1].
  bind_inv H as a Ha. inv_Ok. simpl.
  apply xr_DataArray_Ok in Ha as (Hd & Ht & _).
  exists a. destruct r.
  - bind_inv Hp as rows' Hr. inv_Ok. simpl in *.
    split; [reflexivity|]. split; [exact Ht|].
    split; [|discriminate]. intros _. split; [reflexivity|]. eauto.
  - inv_Ok. simpl in *.
    split; [reflexivity|]. split; [exact Ht|]. split; [discriminate|]. auto.
Qed.


Lemma poses_block_Ok pf ss g r poses l l' :
  poses_block pf ss g r poses l = Ok l' ->
  (forall k : string, k <> "pose_positions"%string ->
     k <> "pose_positions_allo"%string ->
     l_dataset_data l' !! k = l_dataset_data l !! k) /\
  (poses = None -> l' = l).
Proof.
  unfold poses_block. destruct poses as [p|].
  - intros H. bind_inv H as x Hx. destruct x as [[pp ppa] l1].
    bind_inv H as a Ha. bind_inv H as b Hb. inv_Ok. simpl.
    split; [|discriminate]. intros k H1 H2.
    rewrite !lookup_insert_ne by congruence.
    destruct r.
    + bind_inv Hx as y Hy. bind_inv Hx as z Hz. inv_Ok. reflexivity.
    + inv_Ok. reflexivity.
  - intros [= <-]. auto.
Qed.

(** The stations of a run of [assemble] that returns. *)
Lemma assemble_Ok pf ld tsr keep r ds :
  assemble pf ld tsr keep r = Ok ds ->
  exists rec g nf d1 d2 l3 l4,
    let tracks := loaded_tracks ld in
    let ftf := (tracked_range rec tracks).1 in
    let ltf := (tracked_range rec tracks).2 in
    let flags := raw_song_block (bool_decide (is_Some (load_segmentation ld)))
                                keep ld in
    load_times ld = Some rec /\
    build_grid (rec_ss rec) (last_sample_number rec) (sampling_rate rec) tsr ltf
      = Ok g /\
    nearest_frame pf (rec_ss rec) ftf ltf (target_samples g) = Ok nf /\
    song_block (sampletime g) flags.1 keep flags.2 ∅ = Ok d1 /\
    events_block g (sampling_rate rec) (load_manual_annotation ld)
                 (load_segmentation ld) nf d1 = Ok d2 /\
    tracks_block pf (rec_ss rec) g r tracks ftf ltf
      {| l_time := time g; l_nearest_frame_time := nf;
         l_frame_numbers := np_arange1 ftf ltf; l_dataset_data := d2 |} = Ok l3 /\
    poses_block pf (rec_ss rec) g r (loaded_poses ld) l3 = Ok l4 /\
    ds = l_dataset_data l4.
Proof.
  unfold assemble. intros H.
  bind_inv H as rec Hrec. destruct (load_times ld) as [rec'|]; [|discriminate].
  inv_Ok.
  bind_inv H as g Hg. bind_inv H as nf Hnf. bind_inv H as d1 Hd1.
  bind_inv H as d2 Hd2. bind_inv H as l3 Hl3. bind_inv H as l4 Hl4. inv_Ok.
  exists rec, g, nf, d1, d2, l3, l4. simpl. auto 10.
Qed.


Lemma song_block_keys sampletime with_song keep has_raw
    (d' : gmap string DataArray) (k : string) (a : DataArray) :
  song_block sampletime with_song keep has_raw ∅ = Ok d' ->
  d' !! k = Some a ->
  da_time a = sampletime /\ (k = "song" \/ k = "song_raw")%string.
Proof.
  unfold song_block. destruct with_song.
  - simpl. destruct keep.
    + destruct has_raw; [|discriminate]. simpl. intros [= <-] Hk.
      destruct (decide (k = "song_raw"%string)) as [->|H1].
      { rewrite lookup_insert_eq in Hk. injection Hk as <-. auto. }
      rewrite lookup_insert_ne in Hk by congruence.
      destruct (decide (k = "song"%string)) as [->|H2].
      { rewrite lookup_insert_eq in Hk. injection Hk as <-. auto. }
      rewrite lookup_insert_ne, lookup_empty in Hk by congruence. discriminate.
    + intros [= <-] Hk.
      destruct (decide (k = "song"%string)) as [->|H2].
      { rewrite lookup_insert_eq in Hk. injection Hk as <-. auto. }
      rewrite lookup_insert_ne, lookup_empty in Hk by congruence. discriminate.
  - intros [= <-] Hk. rewrite lookup_empty in Hk. discriminate.
Qed.

(** ** Claims on the assembly *)

(** C9 (as amended). When the automatic segmentation loads, [assemble]
    returns no dataset: it raises, and the exception is the [NameError] of
    line 175 whenever the statements before it run through (the timing
    loads, the step is not 0, the tracked frames are enough for the
    interpolator, the raw song asked for with [keep_multi_channel] loads,
    no manual segment array is empty). *)
Theorem automatic_segmentation_raises pf ld tsr keep r res :
  load_segmentation ld = Some res ->
  exists e, assemble pf ld tsr keep r = Raised e /\
    forall rec,
      load_times ld = Some rec ->
      compute_step (sampling_rate rec) tsr <> 0 ->
      (interp1d_min_entries pf <=
         Z.to_nat ((tracked_range rec (loaded_tracks ld)).2 -
                   (tracked_range rec (loaded_tracks ld)).1))%nat ->
      (keep = true -> load_raw_song ld = true) ->
      (load_manual_annotation ld = None \/
       exists evs, load_manual_annotation ld = Some evs /\ expandable evs) ->
      e = NameError.
Proof.
  intros Hseg. unfold assemble.
  destruct (load_times ld) as [rec|]; cbn beta iota zeta delta [mbind result_bind];
    [|exists LoadError; split; [reflexivity|discriminate]].
  set (tracks := loaded_tracks ld).
  set (ftf := (tracked_range rec tracks).1).
  set (ltf := (tracked_range rec tracks).2).
  destruct (build_grid _ _ _ tsr ltf) as [g|e] eqn:Hg;
    cbn beta iota zeta delta [mbind result_bind].
  2:{ exists e. split; [reflexivity|]. intros rec' [= <-] Hstep _ _ _.
      destruct (build_grid_total (rec_ss rec) (last_sample_number rec)
                  (sampling_rate rec) tsr ltf Hstep) as [g Hg'].
      congruence. }
  destruct (nearest_frame pf _ ftf ltf _) as [nf|e] eqn:Hnf;
    cbn beta iota zeta delta [mbind result_bind].
  2:{ exists e. split; [reflexivity|]. intros rec' [= <-] _ Hmin _ _.
      destruct (nearest_frame_total pf (rec_ss rec) ftf ltf (target_samples g) Hmin)
        as [nf Hnf']. congruence. }
  rewrite Hseg.
  destruct (song_block _ _ keep _ ∅) as [d1|e] eqn:Hd1;
    cbn beta iota zeta delta [mbind result_bind].
  2:{ exists e. split; [reflexivity|]. intros rec' [= <-] _ _ Hraw _.
      destruct (song_block_total (sampletime g)
        (raw_song_block (bool_decide (is_Some (Some res))) keep ld).1 keep
        (raw_song_block (bool_decide (is_Some (Some res))) keep ld).2 ∅)
        as [d1 Hd1']; [|congruence].
      intros _ ->. unfold raw_song_block. rewrite Hraw by reflexivity.
      reflexivity. }
  destruct (events_block_segmentation g (sampling_rate rec)
              (load_manual_annotation ld) res nf d1) as (e & He & HN).
  rewrite He. cbn beta iota zeta delta [mbind result_bind].
  exists e. split; [reflexivity|]. intros rec' [= <-] _ _ _ Hman. apply HN.
  destruct Hman as [Hn|(evs & Hevs & Hex)]; [auto|].
  right. exists evs. split; [exact Hevs|]. apply manual_events_total, Hex.
Qed.

Lemma automatic_segmentation_raises_witness :
  load_segmentation (ld_ex (Some seg_ex))
    = Some seg_ex /\
  assemble pf_x86 (ld_ex (Some seg_ex)) 2 false true
    = Raised NameError.
Proof.
  split; [reflexivity|].
  destruct (automatic_segmentation_raises pf_x86
              (ld_ex (Some seg_ex)) 2 false true
              seg_ex eq_refl) as (e & He & HN).
  rewrite He. f_equal. apply (HN rec_ex).
  - reflexivity.
  - vm_compute. discriminate.
  - vm_compute. lia.
  - discriminate.
  - left. reflexivity.
Defined.

(** C9 as stated fails: the automatic segmentation loads, but at 100 Hz
    resampled to the default 1000 Hz the step is 0 and line 125 raises
    before line 175 is reached; the exception is not a [NameError]. *)
Lemma segmentation_with_zero_step_raises_earlier :
  load_segmentation (ld_ex (Some seg_ex)) = Some seg_ex /\
  compute_step (sampling_rate rec_ex) 1000 = 0 /\
  assemble pf_x86 (ld_ex (Some seg_ex)) 1000 false true
    = Raised ZeroDivisionError /\
  assemble pf_x86 (ld_ex (Some seg_ex)) 1000 false true <> Raised NameError.
Proof.
  split; [reflexivity|]. split; [reflexivity|].
  split; [vm_compute; reflexivity|]. vm_compute. discriminate.
Qed.





Lemma poses_block_time pf ss g poses l l' (k : string) (a : DataArray) :
  poses_block pf ss g true poses l = Ok l' ->
  l_dataset_data l' !! k = Some a -> l_dataset_data l !! k = None ->
  da_time a = l_time l.
Proof.
  unfold poses_block. destruct poses as [p|].
  - intros H. bind_inv H as x Hx. destruct x as [[pp ppa] l1].
    bind_inv Hx as y Hy. bind_inv Hx as z Hz. inv_Ok. simpl in *.
    bind_inv H as b Hb. bind_inv H as c Hc. inv_Ok. simpl.
    apply xr_DataArray_Ok in Hb as (_ & Hb & _).
    apply xr_DataArray_Ok in Hc as (_ & Hc & _).
    intros Hk Hn.
    destruct (decide (k = "pose_positions_allo"%string)) as [->|H1].
    { rewrite lookup_insert_eq in Hk. congruence. }
    rewrite lookup_insert_ne in Hk by congruence.
    destruct (decide (k = "pose_positions"%string)) as [->|H2].
    { rewrite lookup_insert_eq in Hk. congruence. }
    rewrite lookup_insert_ne in Hk by congruence. congruence.
  - intros [= <-] Hk Hn. congruence.
Qed.

Lemma grid_head ss lsn sr tsr ltf g :
  build_grid ss lsn sr tsr ltf = Ok g ->
  0 < last_sample g -> 0 < step g ->
  target_samples g !! 0%nat = Some 0 /\
  (exists t, time g !! 0%nat = Some t /\ (t == 0)%Q) /\
  (exists t, sampletime g !! 0%nat = Some t /\ (t == 0)%Q).
Proof.
  intros Hg Hlast Hstep.
  pose proof (build_grid_Ok _ _ _ _ _ _ Hg) as (_ & _ & _ & _ & _ & Ht & Htime & Hst).
  assert (0 < ceil_div (last_sample g) (step g)) as Hc
    by (apply ceil_div_spec; lia).
  assert (target_samples g !! 0%nat = Some 0) as H0.
  { rewrite Ht. rewrite lookup_arange_from by lia. reflexivity. }
  assert (forall q : Q, (inject_Z 0 / q == 0)%Q) as Hz.
  { intros q. unfold Qdiv. apply Qmult_0_l. }
  split; [exact H0|]. split.
  - exists (inject_Z 0 / sr)%Q. split; [|apply Hz].
    rewrite Htime. unfold seconds.
    change (map ?f ?x) with (f <$> x). rewrite list_lookup_fmap, H0. reflexivity.
  - exists (inject_Z 0 / sr)%Q. split; [|apply Hz].
    rewrite Hst. unfold seconds, np_arange1.
    change (map ?f ?x) with (f <$> x).
    rewrite list_lookup_fmap, lookup_arange_from by lia. reflexivity.
Qed.

(** C10 (as amended). [first_sample] is 0 whatever the first tracked
    frame. In a dataset assembled with [resample_video_data], ['song'] and
    ['song_raw'] carry the [sampletime] of the grid and the events,
    positions and poses its [time]; when the grid is not empty
    ([last_sample > 0]) both start at 0.0. Every multiple of the step
    below [last_sample] is a grid point, also before the sample of the
    first tracked frame, where the resampled positions are NaN. *)
Theorem grid_starts_at_sample_zero pf ld tsr keep ds :
  assemble pf ld tsr keep true = Ok ds ->
  exists rec g,
    load_times ld = Some rec /\
    build_grid (rec_ss rec) (last_sample_number rec) (sampling_rate rec) tsr
               (tracked_range rec (loaded_tracks ld)).2 = Ok g /\
    first_sample g = 0 /\
    (forall (k : string) a,
       k ∈ ["song"; "song_raw"]%string -> ds !! k = Some a ->
       da_time a = sampletime g) /\
    (forall (k : string) a,
       k ∈ ["song_events"; "body_positions"; "pose_positions";
            "pose_positions_allo"]%string ->
       ds !! k = Some a -> da_time a = time g) /\
    (0 < last_sample g -> 0 < step g ->
       target_samples g !! 0%nat = Some 0 /\
       (exists t, time g !! 0%nat = Some t /\ (t == 0)%Q) /\
       (exists t, sampletime g !! 0%nat = Some t /\ (t == 0)%Q)) /\
    (0 < step g -> forall i : nat,
       Z.of_nat i * step g < last_sample g ->
       target_samples g !! i = Some (Z.of_nat i * step g)) /\
    (monotone_timing (rec_ss rec) ->
     forall t a, loaded_tracks ld = Some t ->
       ds !! "body_positions"%string = Some a ->
       exists rows, da_data a = Positions rows /\
         forall (i : nat) s, target_samples g !! i = Some s ->
           (inject_Z s < ss_sample (rec_ss rec) (first_tracked_frame t))%Q ->
           rows !! i = Some None).
Proof.
  intros H.
  apply assemble_Ok in H
    as (rec & g & nf & d1 & d2 & l3 & l4 & Hrec & Hg & _ & Hd1 & Hd2 & Hl3 & Hl4 & ->).
  exists rec, g. split; [exact Hrec|]. split; [exact Hg|].
  pose proof (build_grid_Ok _ _ _ _ _ _ Hg) as (_ & _ & H0 & _ & _ & Ht & _).
  split; [exact H0|].
  apply events_block_Ok in Hd2 as (_ & Hd2 & Hev).
  pose proof (poses_block_Ok _ _ _ _ _ _ _ Hl4) as [Hl4k _].
  assert (forall k : string, k <> "song"%string -> k <> "song_raw"%string ->
            d1 !! k = None) as Hd1n.
  { intros k H1 H2. destruct (d1 !! k) as [b|] eqn:Hb; [|reflexivity].
    destruct (song_block_keys _ _ _ _ _ _ _ Hd1 Hb) as [_ [->| ->]]; congruence. }
  assert (l_time l3 = time g /\
          (forall k : string, k <> "body_positions"%string ->
             l_dataset_data l3 !! k = d2 !! k) /\
          (forall a, l_dataset_data l3 !! "body_positions"%string = Some a ->
             da_time a = time g /\
             forall t, loaded_tracks ld = Some t ->
               exists rows,
                 resample pf (rec_ss rec) (np_arange1 (first_tracked_frame t)
                                                      (last_tracked_frame t))
                          (body_pos t) (target_samples g) = Ok rows /\
                 da_data a = Positions rows)) as (Htime & Hl3k & Hbp).
  { destruct (loaded_tracks ld) as [t|] eqn:Htr.
    - apply tracks_block_Ok in Hl3 as (a & -> & Ha & Hr & _). simpl in *.
      destruct (Hr eq_refl) as (Hlt & rows & Hrows & Hdata).
      split; [exact Hlt|]. split.
      + intros k Hk. rewrite lookup_insert_ne by congruence. reflexivity.
      + intros a' Ha'. rewrite lookup_insert_eq in Ha'. injection Ha' as <-.
        split; [congruence|]. intros t' [= <-]. eauto.
    - simpl in Hl3. injection Hl3 as <-. simpl.
      split; [reflexivity|]. split; [auto|].
      intros a Ha. rewrite Hd2, Hd1n in Ha by discriminate. discriminate. }
  split; [|split; [|split; [|split]]].
  - intros k a Hk Ha.
    assert (k <> "song_events" /\ k <> "body_positions" /\
            k <> "pose_positions" /\ k <> "pose_positions_allo")%string
      as (N1 & N2 & N3 & N4).
    { repeat (apply elem_of_cons in Hk as [->|Hk]; [repeat split; discriminate|]).
      apply elem_of_nil in Hk. contradiction. }
    rewrite Hl4k, Hl3k, Hd2 in Ha by assumption.
    apply (song_block_keys _ _ _ _ _ _ _ Hd1 Ha).
  - intros k a Hk Ha.
    apply elem_of_cons in Hk as [->|Hk].
    { rewrite Hl4k, Hl3k in Ha by discriminate.
      apply Hev; [exact Ha|]. apply Hd1n; discriminate. }
    apply elem_of_cons in Hk as [->|Hk].
    { rewrite Hl4k in Ha by discriminate. apply Hbp, Ha. }
    rewrite <- Htime. apply (poses_block_time _ _ _ _ _ _ _ _ Hl4 Ha).
    repeat (apply elem_of_cons in Hk as [->|Hk];
            [rewrite Hl3k, Hd2 by discriminate; apply Hd1n; discriminate|]).
    apply elem_of_nil in Hk. contradiction.
  - apply (grid_head _ _ _ _ _ _ Hg).
  - intros Hstep i Hi. rewrite Ht.
    rewrite lookup_arange_from; [f_equal; lia|].
    apply ceil_div_spec in Hi; lia.
  - intros Hm t a Htr Ha.
    rewrite Hl4k in Ha by discriminate.
    destruct (Hbp a Ha) as [_ Hrows].
    destruct (Hrows t Htr) as (rows & Hr & Hdata).
    exists rows. split; [exact Hdata|]. intros i s Hi Hs.
    eapply resample_outside; eauto.
Qed.

Lemma assemble_ex_eval :
  match assemble pf_x86 (ld_ex None) 2 false true with
  | Ok ds => is_Some (ds !! "body_positions"%string)
  | Raised _ => False
  end.
Proof. vm_compute. eexists; reflexivity. Qed.

Lemma assemble_ex_runs :
  exists ds a,
    assemble pf_x86 (ld_ex None) 2 false true = Ok ds /\
    ds !! "body_positions"%string = Some a.
Proof.
  pose proof assemble_ex_eval as H.
  destruct (assemble pf_x86 (ld_ex None) 2 false true) as [ds|]; [|contradiction].
  destruct H as [a Ha]. exists ds, a. auto.
Qed.

Lemma grid_starts_at_sample_zero_witness :
  exists ds a t,
    assemble pf_x86 (ld_ex None) 2 false true = Ok ds /\
    ds !! "body_positions"%string = Some a /\
    da_time a !! 0%nat = Some t /\ (t == 0)%Q.
Proof.
  destruct assemble_ex_runs as (ds & a & Hds & Ha).
  destruct (grid_starts_at_sample_zero pf_x86 (ld_ex None) 2 false ds Hds)
    as (rec & g & Hrec & Hg & _ & _ & Htime & Hhead & _).
  injection Hrec as <-.
  destruct Hhead as (_ & (t & Ht & Ht0) & _).
  - apply build_grid_Ok in Hg as (_ & _ & _ & -> & _). vm_compute. reflexivity.
  - apply build_grid_Ok in Hg as (-> & _). vm_compute. reflexivity.
  - exists ds, a, t. split; [exact Hds|]. split; [exact Ha|].
    rewrite (Htime "body_positions"%string a) by (try exact Ha; set_solver).
    split; [exact Ht|exact Ht0].
Defined.

Lemma assemble_ex_not_resampled_eval :
  match assemble pf_x86 (ld_ex None) 2 false false with
  | Ok ds =>
      match ds !! "body_positions"%string with
      | Some a => da_time a !! 0%nat = Some (inject_Z 2)
      | None => False
      end
  | Raised _ => False
  end.
Proof. vm_compute. reflexivity. Qed.

(** C10 as stated fails: without [resample_video_data] the time axis of
    the positions is that of the tracked frames, and starts at the time
    of frame 2, not at 0.0. *)
Lemma time_starts_at_first_frame_when_not_resampled :
  exists ds a t,
    assemble pf_x86 (ld_ex None) 2 false false = Ok ds /\
    ds !! "body_positions"%string = Some a /\
    da_time a !! 0%nat = Some t /\ (t == 2)%Q /\ ~ (t == 0)%Q.
Proof.
  pose proof assemble_ex_not_resampled_eval as H.
  destruct (assemble pf_x86 (ld_ex None) 2 false false) as [ds|];
    [|contradiction].
  destruct (ds !! "body_positions"%string) as [a|] eqn:Ha; [|contradiction].
  exists ds, a, (inject_Z 2).
  split; [reflexivity|]. split; [exact Ha|]. split; [exact H|].
  split; [reflexivity|]. intros E. vm_compute in E. discriminate.
Qed.

Set Warnings "-clear-no-such-hyp".

(** * Further properties of [assemble] *)

(** ** Which arrays a dataset holds *)

Lemma song_block_dom sampletime with_song keep has_raw
    (d d' : gmap string DataArray) :
  song_block sampletime with_song keep has_raw d = Ok d' ->
  dom d' = dom d ∪
    (if with_song
     then {["song"%string]} ∪ (if keep then {["song_raw"%string]} else ∅)
     else ∅).
Proof.
  unfold song_block. destruct with_song.
  - simpl. destruct keep.
    + destruct has_raw; [|discriminate]. simpl. intros [= <-].
      rewrite !dom_insert_L. set_solver.
    + intros [= <-]. rewrite dom_insert_L. set_solver.
  - intros [= <-]. set_solver.
Qed.

Lemma events_block_dom g sr manual seg nft (d d' : gmap string DataArray) :
  events_block g sr manual seg nft d = Ok d' ->
  dom d' = dom d ∪ match manual with
                    | Some _ => {["song_events"%string]}
                    | None => ∅
                    end.
Proof.
  unfold events_block. intros H. bind_inv H as ev0 Hev0. bind_inv H as ev Hev.
  destruct seg as [res|]; [discriminate|]. inv_Ok.
  destruct manual as [evs|].
  - rewrite bool_decide_eq_true_2 in H by eauto. simpl in H.
    bind_inv H as m Hm. bind_inv H as da Hda. inv_Ok.
    rewrite dom_insert_L. set_solver.
  - rewrite !bool_decide_eq_false_2 in H by (intros [? ?]; discriminate).
    simpl in H. inv_Ok. set_solver.
Qed.

Lemma tracks_block_dom pf ss g r tracks ftf ltf l l' :
  tracks_block pf ss g r tracks ftf ltf l = Ok l' ->
  dom (l_dataset_data l') =
    dom (l_dataset_data l) ∪
    match tracks with
    | Some _ => {["body_positions"%string]}
    | None => ∅
    end.
Proof.
  destruct tracks as [t|].
  - intros H. apply tracks_block_Ok in H as (a & -> & _).
    rewrite dom_insert_L. set_solver.
  - simpl. intros [= <-]. set_solver.
Qed.

Lemma poses_block_dom pf ss g r poses l l' :
  poses_block pf ss g r poses l = Ok l' ->
  dom (l_dataset_data l') =
    dom (l_dataset_data l) ∪
    match poses with
    | Some _ => {["pose_positions"%string; "pose_positions_allo"%string]}
    | None => ∅
    end.
Proof.
  unfold poses_block. destruct poses as [p|].
  - intros H. bind_inv H as x Hx. destruct x as [[pp ppa] l1].
    bind_inv H as a Ha. bind_inv H as b Hb. inv_Ok. simpl.
    rewrite !dom_insert_L.
    assert (l_dataset_data l1 = l_dataset_data l) as ->.
    { destruct r.
      - bind_inv Hx as y Hy. bind_inv Hx as z Hz. inv_Ok. reflexivity.
      - inv_Ok. reflexivity. }
    set_solver.
  - intros [= <-]. set_solver.
Qed.

(** X1. A dataset that [assemble] returns holds exactly the arrays whose
    loaders succeeded: ['song'] when the raw song loads and merges,
    ['song_raw'] when it is also asked for, ['song_events'] when the
    manual annotations load, ['body_positions'] when tracks load, the two
    pose arrays when poses load - and no automatic segmentation loaded. *)
Theorem dataset_keys pf ld tsr keep r ds :
  assemble pf ld tsr keep r = Ok ds ->
  load_segmentation ld = None /\
  dom ds =
    (if load_raw_song ld && merge_channels ld
     then {["song"%string]} ∪ (if keep then {["song_raw"%string]} else ∅)
     else ∅) ∪
    match load_manual_annotation ld with
    | Some _ => {["song_events"%string]}
    | None => ∅
    end ∪
    match loaded_tracks ld with
    | Some _ => {["body_positions"%string]}
    | None => ∅
    end ∪
    match loaded_poses ld with
    | Some _ => {["pose_positions"%string; "pose_positions_allo"%string]}
    | None => ∅
    end.
Proof.
  intros H.
  apply assemble_Ok in H
    as (rec & g & nf & d1 & d2 & l3 & l4 & _ & _ & _ & Hd1 & Hd2 & Hl3 & Hl4 & ->).
  pose proof (events_block_Ok _ _ _ _ _ _ _ Hd2) as (Hseg & _).
  split; [exact Hseg|].
  rewrite Hseg in Hd1.
  rewrite bool_decide_eq_false_2 in Hd1 by (intros [? ?]; discriminate).
  apply song_block_dom in Hd1. apply events_block_dom in Hd2.
  apply tracks_block_dom in Hl3. apply poses_block_dom in Hl4.
  simpl in Hl3. rewrite Hl4, Hl3, Hd2, Hd1, dom_empty_L.
  unfold raw_song_block.
  destruct (load_raw_song ld), (merge_channels ld); simpl; set_solver.
Qed.

Lemma dataset_keys_witness :
  exists ds,
    assemble pf_x86 (ld_ex None) 2 false true = Ok ds /\
    dom ds = {["song"%string; "body_positions"%string]}.
Proof.
  destruct assemble_ex_runs as (ds & a & Hds & _).
  exists ds. split; [exact Hds|].
  destruct (dataset_keys pf_x86 (ld_ex None) 2 false true ds Hds) as [_ ->].
  simpl. set_solver.
Defined.

(** ** Assembly never fails on a missing modality *)





(** ** The two time axes *)

(** X3. [sampletime] has one entry per sample below [last_sample], the
    [i]-th being [i / sampling_rate], and [time] is [sampletime] read at
    every [step]-th entry: [time[i] = sampletime[i * step]]. *)
Theorem time_subsamples_sampletime ss lsn sr tsr ltf g :
  build_grid ss lsn sr tsr ltf = Ok g -> 0 < step g ->
  length (sampletime g) = Z.to_nat (last_sample g) /\
  (forall (i : nat) t, sampletime g !! i = Some t ->
     t = (inject_Z (Z.of_nat i) / sr)%Q) /\
  (forall (i : nat) t, time g !! i = Some t ->
     sampletime g !! (i * Z.to_nat (step g))%nat = Some t).
Proof.
  intros Hg Hstep.
  pose proof (build_grid_Ok _ _ _ _ _ _ Hg)
    as (_ & _ & _ & _ & _ & Ht & Htime & Hst).
  assert (forall i : nat, (i < Z.to_nat (last_sample g))%nat ->
            sampletime g !! i = Some (inject_Z (Z.of_nat i) / sr)%Q) as Hlk.
  { intros i Hi. rewrite Hst. unfold seconds, np_arange1.
    change (map ?f ?x) with (f <$> x).
    rewrite list_lookup_fmap, lookup_arange_from by lia. simpl.
    do 3 f_equal. lia. }
  split; [|split].
  - rewrite Hst. unfold seconds. rewrite length_map, length_np_arange1.
    f_equal. lia.
  - intros i t Hi.
    assert (i < Z.to_nat (last_sample g))%nat as Hlt.
    { apply lookup_lt_Some in Hi. rewrite Hst in Hi. unfold seconds in Hi.
      rewrite length_map, length_np_arange1 in Hi. lia. }
    rewrite Hlk in Hi by exact Hlt. congruence.
  - intros i t Hi. rewrite Htime in Hi. unfold seconds in Hi.
    change (map ?f ?x) with (f <$> x) in Hi.
    rewrite list_lookup_fmap in Hi.
    destruct (target_samples g !! i) as [s|] eqn:Hs; [|discriminate].
    simpl in Hi. injection Hi as <-.
    assert (i < length (target_samples g))%nat as Hlt
      by (eapply lookup_lt_Some; eauto).
    rewrite (lookup_target_samples _ _ _ _ _ _ i Hg Hlt) in Hs.
    injection Hs as <-.
    assert (Z.of_nat i * step g < last_sample g) as Hb.
    { rewrite Ht, length_arange_from in Hlt.
      apply ceil_div_spec; [exact Hstep|lia]. }
    rewrite Hlk by nia. do 3 f_equal. nia.
Qed.

Lemma time_subsamples_sampletime_witness :
  exists g,
    build_grid ss_ex 1000 100 2 6 = Ok g /\ 0 < step g /\
    length (sampletime g) = 500%nat /\
    time g !! 3%nat = sampletime g !! 150%nat.
Proof.
  eexists. split; [vm_compute; reflexivity|].
  split; [vm_compute; reflexivity|].
  destruct (time_subsamples_sampletime ss_ex 1000 100 2 6 _ eq_refl eq_refl)
    as (Hlen & _ & Hsub).
  split; [exact Hlen|].
  symmetry. apply (Hsub 3%nat). reflexivity.
Defined.

(** ** Manual annotations, from seconds to bins *)


Lemma expand_all_keys (evs : list (string * EventArray Z)) events :
  expand_all evs = Ok events -> events.*1 = evs.*1.
Proof.
  revert events. induction evs as [|[key0 val0] rest IH]; intros events H;
    simpl in H.
  - inv_Ok. reflexivity.
  - bind_inv H as samples0 Hs. bind_inv H as rest' Hr. inv_Ok.
    rewrite !fmap_cons. simpl. f_equal. apply IH, Hr.
Qed.

Lemma events_block_manual g sr evs nft (d d' : gmap string DataArray) :
  events_block g sr (Some evs) None nft d = Ok d' ->
  exists events m a,
    manual_events sr evs = Ok events /\
    song_events_np (step g) (last_sample_with_frame g) (length (time g)) events
      = Ok m /\
    d' = <["song_events"%string := a]> d /\
    da_data a = Events m events.*1 /\ da_time a = time g /\
    da_nearest_frame a = Some nft.
Proof.
  unfold events_block. intros H. bind_inv H as events Hev.
  bind_inv H as events' Hev'. inv_Ok.
  rewrite bool_decide_eq_true_2 in H by eauto. simpl in H.
  bind_inv H as m Hm. bind_inv H as a Ha. inv_Ok.
  apply xr_DataArray_Ok in Ha as (Hd & Ht & Hn).
  exists events', m, a. auto 10.
Qed.




Lemma assemble_manual_ex_eval :
  match assemble pf_x86 ld_manual_ex 2 false true with
  | Ok ds => True
  | Raised _ => False
  end.
Proof. vm_compute. exact I. Qed.


(** ** An annotated segment type without segments *)

Lemma expand_all_empty_segments (evs : list (string * EventArray Z)) key :
  (key, SegmentEvents []) ∈ evs -> expand_all evs = Raised ValueError.
Proof.
  induction evs as [|[key0 val0] rest IH]; intros Hin.
  - apply elem_of_nil in Hin. contradiction.
  - simpl. apply elem_of_cons in Hin as [Heq|Hin].
    + injection Heq as <- <-. reflexivity.
    + rewrite (IH Hin).
      destruct val0 as [t|[|p t]]; reflexivity.
Qed.

Lemma song_block_flags_total sampletime (with_song keep : bool) ld
    (d : gmap string DataArray) :
  (keep = true -> load_raw_song ld = true) ->
  is_Ok (song_block sampletime (raw_song_block with_song keep ld).1 keep
                    (raw_song_block with_song keep ld).2 d).
Proof.
  intros Hraw. apply song_block_total. unfold raw_song_block.
  intros Hws ->. rewrite Hraw in * by reflexivity.
  rewrite orb_true_r in *.
  destruct (negb with_song && negb (merge_channels ld)) eqn:E; simpl in *.
  - apply andb_true_iff in E as [E _]. rewrite Hws in E. discriminate.
  - reflexivity.
Qed.

(** X5. If the manual annotations load and hold a segment type without
    any segment, [assemble] returns no dataset: [np.concatenate] of line
    166 has nothing to join. The exception is that [ValueError] whenever
    the statements before it run through. *)
Theorem empty_segment_array_raises pf ld tsr keep r evs key :
  load_manual_annotation ld = Some evs ->
  (key, SegmentEvents []) ∈ evs ->
  exists e, assemble pf ld tsr keep r = Raised e /\
    forall rec,
      load_times ld = Some rec ->
      compute_step (sampling_rate rec) tsr <> 0 ->
      (interp1d_min_entries pf <=
         Z.to_nat ((tracked_range rec (loaded_tracks ld)).2 -
                   (tracked_range rec (loaded_tracks ld)).1))%nat ->
      (keep = true -> load_raw_song ld = true) ->
      e = ValueError.
Proof.
  intros Hman Hin. unfold assemble.
  destruct (load_times ld) as [rec|]; cbn beta iota zeta delta [mbind result_bind];
    [|exists LoadError; split; [reflexivity|discriminate]].
  set (tracks := loaded_tracks ld).
  set (ftf := (tracked_range rec tracks).1).
  set (ltf := (tracked_range rec tracks).2).
  destruct (build_grid _ _ _ tsr ltf) as [g|e] eqn:Hg;
    cbn beta iota zeta delta [mbind result_bind].
  2:{ exists e. split; [reflexivity|]. intros rec' [= <-] Hstep _ _.
      destruct (build_grid_total (rec_ss rec) (last_sample_number rec)
                  (sampling_rate rec) tsr ltf Hstep) as [g Hg'].
      congruence. }
  destruct (nearest_frame pf _ ftf ltf _) as [nf|e] eqn:Hnf;
    cbn beta iota zeta delta [mbind result_bind].
  2:{ exists e. split; [reflexivity|]. intros rec' [= <-] _ Hmin _.
      destruct (nearest_frame_total pf (rec_ss rec) ftf ltf (target_samples g) Hmin)
        as [nf Hnf']. congruence. }
  destruct (song_block _ _ keep _ ∅) as [d1|e] eqn:Hd1;
    cbn beta iota zeta delta [mbind result_bind].
  2:{ exists e. split; [reflexivity|]. intros rec' [= <-] _ _ Hraw.
      destruct (song_block_flags_total (sampletime g)
                  (bool_decide (is_Some (load_segmentation ld))) keep ld ∅ Hraw)
        as [d1 Hd1']. congruence. }
  assert (events_block g (sampling_rate rec) (load_manual_annotation ld)
            (load_segmentation ld) nf d1 = Raised ValueError) as ->.
  { rewrite Hman. unfold events_block, manual_events.
    rewrite (expand_all_empty_segments _ key); [reflexivity|].
    change (map ?f evs) with (f <$> evs). apply list_elem_of_fmap.
    exists (key, SegmentEvents []). split; [reflexivity|exact Hin]. }
  exists ValueError. split; [reflexivity|auto].
Qed.

Lemma empty_segment_array_raises_witness :
  let ld := {| load_times := Some rec_ex;
               load_tracks_fixed := None;
               load_tracks_nonfixed := Some tracks_ex;
               load_poses_deepposekit := None; load_poses_leap := None;
               load_segmentation := None;
               load_raw_song := true; merge_channels := true;
               load_manual_annotation :=
                 Some [("pulse_manual"%string, PointEvents [2%Q]);
                       ("sine_manual"%string, SegmentEvents [])] |} in
  assemble pf_x86 ld 2 false true = Raised ValueError.
Proof.
  intros ld.
  destruct (empty_segment_array_raises pf_x86 ld 2 false true _
              "sine_manual"%string eq_refl ltac:(right; left))
    as (e & He & HV).
  rewrite He. f_equal. apply (HV rec_ex).
  - reflexivity.
  - vm_compute. discriminate.
  - vm_compute. lia.
  - discriminate.
Defined.

(** ** The nearest frame is the nearest one *)

Lemma length_midpoints (xs : list Q) :
  length (midpoints xs) = (length xs - 1)%nat.
Proof.
  induction xs as [|a t IH]; [reflexivity|].
  destruct t as [|b t]; [reflexivity|].
  change (midpoints (a :: b :: t)) with ((b / 2 + a / 2)%Q :: midpoints (b :: t)).
  simpl length in *. rewrite IH. lia.
Qed.

Lemma midpoints_lookup (xs : list Q) (j : nat) (a b : Q) :
  xs !! j = Some a -> xs !! S j = Some b ->
  midpoints xs !! j = Some (b / 2 + a / 2)%Q.
Proof.
  revert j. induction xs as [|x0 t IH]; intros j Ha Hb; [discriminate|].
  destruct t as [|x1 t]; [simpl in Hb; rewrite lookup_nil in Hb; discriminate|].
  change (midpoints (x0 :: x1 :: t))
    with ((x1 / 2 + x0 / 2)%Q :: midpoints (x1 :: t)).
  destruct j as [|j]; simpl in *.
  - congruence.
  - apply IH; assumption.
Qed.

Lemma searchsorted_left_below (a : list Q) (v : Q) (j : nat) (m : Q) :
  (j < searchsorted_left a v)%nat -> a !! j = Some m -> (m < v)%Q.
Proof.
  revert j. induction a as [|h t IH]; intros j Hj Hm; simpl in *; [lia|].
  destruct (Qlt_bool h v) eqn:E; [|lia].
  destruct j as [|j]; simpl in Hm.
  - injection Hm as <-. apply Qlt_bool_iff, E.
  - apply (IH j); [lia|exact Hm].
Qed.

Lemma searchsorted_left_stop (a : list Q) (v : Q) (m : Q) :
  a !! searchsorted_left a v = Some m -> (v <= m)%Q.
Proof.
  induction a as [|h t IH]; simpl; [discriminate|].
  destruct (Qlt_bool h v) eqn:E; simpl.
  - exact IH.
  - intros [= <-]. apply Qlt_bool_false_iff, E.
Qed.

Lemma nondecreasing_Q_tail (x0 : Q) (t : list Q) :
  nondecreasing_Q (x0 :: t) -> nondecreasing_Q t.
Proof. destruct t; [intros; exact I|intros [_ H]; exact H]. Qed.

Lemma nondecreasing_Q_head (x0 : Q) (t : list Q) (j : nat) (b : Q) :
  nondecreasing_Q (x0 :: t) -> (x0 :: t) !! j = Some b -> (x0 <= b)%Q.
Proof.
  revert x0 t. induction j as [|j IH]; intros x0 t Hs Hb; simpl in Hb.
  - injection Hb as <-. apply Qle_refl.
  - destruct t as [|x1 t']; [rewrite lookup_nil in Hb; discriminate|].
    destruct Hs as [H01 Hs']. eapply Qle_trans; [exact H01|].
    apply (IH x1 t' Hs' Hb).
Qed.

Lemma nondecreasing_Q_lookup (xs : list Q) (i j : nat) (a b : Q) :
  nondecreasing_Q xs -> (i <= j)%nat ->
  xs !! i = Some a -> xs !! j = Some b -> (a <= b)%Q.
Proof.
  revert i j. induction xs as [|x0 t IH]; intros i j Hs Hij Ha Hb;
    [discriminate|].
  destruct i as [|i].
  - simpl in Ha. injection Ha as <-. eapply nondecreasing_Q_head; eauto.
  - destruct j as [|j]; [lia|]. simpl in Ha, Hb.
    apply (IH i j); [eapply nondecreasing_Q_tail; eauto|lia|auto|auto].
Qed.

(** Among sorted knots, the one [interp1d] picks for [kind='nearest'] is
    at least as close to the query as every other knot. *)
Lemma nearest_knot_minimises (xs : list Q) (s : Q) (j : nat) (xk xj : Q) :
  nondecreasing_Q xs ->
  xs !! Nat.min (searchsorted_left (midpoints xs) s) (length xs - 1) = Some xk ->
  xs !! j = Some xj ->
  (Qabs (xk - s) <= Qabs (xj - s))%Q.
Proof.
  intros Hs Hk Hj.
  remember (searchsorted_left (midpoints xs) s) as c eqn:Hc.
  remember (Nat.min c (length xs - 1)) as k eqn:Hkdef.
  pose proof (lookup_lt_Some _ _ _ Hj) as Hjl.
  destruct (Nat.lt_trichotomy j k) as [Hlt|[->|Hgt]].
  - (* a knot to the left: the midpoint below [xk] is below [s] *)
    destruct (lookup_lt_is_Some_2 xs (k - 1) ltac:(lia)) as [xp Hxp].
    assert (midpoints xs !! (k - 1)%nat = Some (xk / 2 + xp / 2)%Q) as Hm.
    { apply midpoints_lookup; [exact Hxp|].
      replace (S (k - 1)) with k by lia. exact Hk. }
    assert (k - 1 < searchsorted_left (midpoints xs) s)%nat as Hkc
      by (rewrite <- Hc; lia).
    pose proof (searchsorted_left_below _ _ _ _ Hkc Hm) as Hlo.
    pose proof (nondecreasing_Q_lookup xs j (k - 1) _ _ Hs ltac:(lia) Hj Hxp).
    pose proof (nondecreasing_Q_lookup xs (k - 1) k _ _ Hs ltac:(lia) Hxp Hk).
    unfold Qdiv in *; change (/ 2)%Q with (1 # 2)%Q in *.
    apply Qabs_case; intros; apply Qabs_case; intros; lra.
  - assert (xk = xj) as -> by congruence. apply Qle_refl.
  - (* a knot to the right: the midpoint above [xk] is not below [s] *)
    assert (k = c) as Hkc by lia.
    destruct (lookup_lt_is_Some_2 xs (S k) ltac:(lia)) as [xn Hxn].
    assert (midpoints xs !! k = Some (xn / 2 + xk / 2)%Q) as Hm
      by (apply midpoints_lookup; assumption).
    rewrite Hkc, Hc in Hm. pose proof (searchsorted_left_stop _ _ _ Hm) as Hup.
    pose proof (nondecreasing_Q_lookup xs (S k) j _ _ Hs ltac:(lia) Hxn Hj).
    pose proof (nondecreasing_Q_lookup xs k (S k) _ _ Hs ltac:(lia) Hk Hxn).
    unfold Qdiv in *; change (/ 2)%Q with (1 # 2)%Q in *.
    apply Qabs_case; intros; apply Qabs_case; intros; lra.
Qed.

Lemma lookup_frame_samples (ss : SampStamp) (a b : Z) (j : nat) :
  (j < Z.to_nat (b - a))%nat ->
  map (ss_sample ss) (np_arange1 a b) !! j = Some (ss_sample ss (a + Z.of_nat j)).
Proof.
  intros Hj. change (map ?f ?x) with (f <$> x).
  unfold np_arange1. rewrite list_lookup_fmap, lookup_arange_from by exact Hj.
  simpl. do 2 f_equal. lia.
Qed.

(** X6. Over a monotone timing model, the entry of [nearest_frame] for a
    grid sample within the span of the tracked frames is a tracked frame,
    and no tracked frame has its sample closer to the grid sample. *)
Theorem nearest_frame_is_nearest pf ss ftf ltf targets nf (i : nat) (s : Z) :
  monotone_timing ss -> 0 <= ftf -> ltf <= 2 ^ 64 -> ftf < ltf ->
  nearest_frame pf ss ftf ltf targets = Ok nf ->
  targets !! i = Some s ->
  (ss_sample ss ftf <= inject_Z s)%Q ->
  (inject_Z s <= ss_sample ss (ltf - 1))%Q ->
  exists f, nf !! i = Some f /\ ftf <= f < ltf /\
    forall f', ftf <= f' < ltf ->
      (Qabs (ss_sample ss f - inject_Z s) <=
       Qabs (ss_sample ss f' - inject_Z s))%Q.
Proof.
  intros Hm H0 H64 Hlt Hnf Hi Hlo Hhi.
  pose proof (nearest_frame_inside _ _ _ _ _ _ _ _ Hm H0 H64 Hlt Hnf Hi Hlo Hhi)
    as Hf.
  set (xs := map (ss_sample ss) (np_arange1 ftf ltf)) in *.
  assert (length xs = Z.to_nat (ltf - ftf)) as Hlen
    by (unfold xs; rewrite length_map; apply length_np_arange1).
  rewrite <- Hlen in Hf.
  remember (Nat.min (searchsorted_left (midpoints xs) (inject_Z s))
                    (length xs - 1)) as k eqn:Hk.
  assert (k < Z.to_nat (ltf - ftf))%nat as Hkl by lia.
  exists (ftf + Z.of_nat k). split; [exact Hf|]. split; [lia|].
  intros f' Hf'.
  replace f' with (ftf + Z.of_nat (Z.to_nat (f' - ftf))) by lia.
  apply (nearest_knot_minimises xs (inject_Z s) (Z.to_nat (f' - ftf))).
  - apply frame_samples_sorted, Hm.
  - rewrite <- Hk. apply lookup_frame_samples. exact Hkl.
  - apply lookup_frame_samples. lia.
Qed.

Lemma nearest_frame_is_nearest_witness :
  exists f,
    monotone_timing ss_ex /\
    nearest_frame pf_x86 ss_ex 2 6 [260] = Ok [3] /\
    f = 3 /\
    (Qabs (ss_sample ss_ex f - inject_Z 260) <=
     Qabs (ss_sample ss_ex 2 - inject_Z 260))%Q.
Proof.
  destruct (nearest_frame_is_nearest pf_x86 ss_ex 2 6 [260] [3] 0 260
              ss_ex_monotone ltac:(lia) ltac:(lia) ltac:(lia))
    as (f & Hf & _ & Hmin).
  - vm_compute. reflexivity.
  - reflexivity.
  - vm_compute. discriminate.
  - vm_compute. discriminate.
  - exists f. split; [exact ss_ex_monotone|]. split; [vm_compute; reflexivity|].
    simpl in Hf. injection Hf as <-. split; [reflexivity|].
    apply Hmin. lia.
Defined.

(** ** Resampled positions at the frames' own samples *)

Lemma Qlt_bool_proper (x y x' y' : Q) :
  (x == x')%Q -> (y == y')%Q -> Qlt_bool x y = Qlt_bool x' y'.
Proof. intros Hx Hy. unfold Qlt_bool. rewrite Hx, Hy. reflexivity. Qed.


Lemma increasing_Q_nondecreasing (l : list Q) :
  increasing_Q l -> nondecreasing_Q l.
Proof.
  induction l as [|a t IH]; [auto|]. destruct t as [|b t]; [auto|].
  intros [Hab Ht]. split; [apply Qlt_le_weak, Hab|apply IH, Ht].
Qed.












(** ** What [assemble] needs to return *)

Lemma interp1d_Ok_lengths {A} pf (x : list Q) (y : list A) ip :
  interp1d pf x y = Ok ip ->
  length y = length x /\ (interp1d_min_entries pf <= length x)%nat.
Proof.
  unfold interp1d.
  destruct (Nat.eqb_spec (length x) (length y)) as [Hlen|]; [simpl|discriminate].
  destruct (Nat.ltb_spec (length x) (interp1d_min_entries pf));
    [discriminate|].
  intros _. split; [congruence|assumption].
Qed.

Lemma resample_Ok_lengths pf ss (a b : Z) pos targets rows :
  resample pf ss (np_arange1 a b) pos targets = Ok rows ->
  length pos = Z.to_nat (b - a)
  /\ (interp1d_min_entries pf <= Z.to_nat (b - a))%nat.
Proof.
  unfold resample. intros H. bind_inv H as ip Hip.
  apply interp1d_Ok_lengths in Hip.
  rewrite length_map, length_np_arange1 in Hip. exact Hip.
Qed.

Lemma manual_events_Ok_expandable sr (evs : list (string * EventArray Q)) events :
  manual_events sr evs = Ok events -> expandable evs.
Proof.
  intros H key Hin. unfold manual_events in H.
  rewrite (expand_all_empty_segments _ key) in H; [discriminate|].
  change (map ?f evs) with (f <$> evs). apply list_elem_of_fmap.
  exists (key, SegmentEvents []). split; [reflexivity|exact Hin].
Qed.

(** X21. With [resample_video_data], [assemble] returns a dataset only if
    the timing loads, no automatic segmentation loads, the step is not
    zero, there are enough tracked frames for the interpolator, the
    tracks and poses that load have one row per frame (and the poses
    enough frames), and no manual segment type is without segments. *)
Theorem assemble_returns_only_if pf ld tsr keep ds :
  assemble pf ld tsr keep true = Ok ds ->
  exists rec,
    load_times ld = Some rec
    /\ load_segmentation ld = None
    /\ compute_step (sampling_rate rec) tsr <> 0
    /\ (interp1d_min_entries pf <=
         Z.to_nat ((tracked_range rec (loaded_tracks ld)).2 -
                   (tracked_range rec (loaded_tracks ld)).1))%nat
    /\ (forall t, loaded_tracks ld = Some t ->
          length (body_pos t) =
            Z.to_nat (last_tracked_frame t - first_tracked_frame t))
    /\ (forall p, loaded_poses ld = Some p ->
          length (pose_pos p) =
            Z.to_nat (last_pose_frame p - first_pose_frame p)
          /\ length (pose_pos_allo p) =
               Z.to_nat (last_pose_frame p - first_pose_frame p)
          /\ (interp1d_min_entries pf <=
                Z.to_nat (last_pose_frame p - first_pose_frame p))%nat)
    /\ (forall evs, load_manual_annotation ld = Some evs -> expandable evs).
Proof.
  intros H.
  apply assemble_Ok in H
    as (rec & g & nf & d1 & d2 & l3 & l4
        & Hrec & Hg & Hnf & Hd1 & Hd2 & Hl3 & Hl4 & ->).
  exists rec. split; [exact Hrec|].
  pose proof (events_block_Ok _ _ _ _ _ _ _ Hd2) as (Hseg & _).
  split; [exact Hseg|].
  apply build_grid_Ok in Hg as (Hstep & Hne & _).
  split; [congruence|]. split.
  { unfold nearest_frame in Hnf. bind_inv Hnf as ip Hip.
    apply interp1d_Ok_lengths in Hip as [_ Hmin].
    rewrite length_map, length_np_arange1 in Hmin. exact Hmin. }
  split.
  { intros t Ht. rewrite Ht in Hl3.
    apply tracks_block_Ok in Hl3 as (a & _ & _ & Hres & _).
    destruct (Hres eq_refl) as (_ & rows & Hrows & _).
    apply resample_Ok_lengths in Hrows as [Hlen _]. exact Hlen. }
  split.
  { intros p Hp. rewrite Hp in Hl4. unfold poses_block in Hl4.
    bind_inv Hl4 as x Hx. bind_inv Hx as pp Hpp. bind_inv Hx as ppa Hppa.
    apply resample_Ok_lengths in Hpp as [Hl1 Hmin].
    apply resample_Ok_lengths in Hppa as [Hl2 _]. auto. }
  intros evs Hev. rewrite Hev, Hseg in Hd2.
  apply events_block_manual in Hd2 as (events & _ & _ & Hman & _).
  eapply manual_events_Ok_expandable, Hman.
Qed.

Lemma assemble_returns_only_if_witness :
  exists ds,
    assemble pf_x86 ld_manual_ex 2 false true = Ok ds
    /\ length (body_pos tracks_ex) = 4%nat.
Proof.
  pose proof assemble_manual_ex_eval as Hrun.
  destruct (assemble pf_x86 ld_manual_ex 2 false true) as [ds|e] eqn:E;
    [|destruct Hrun].
  exists ds. split; [reflexivity|].
  destruct (assemble_returns_only_if pf_x86 ld_manual_ex 2 false ds E)
    as (rec & _ & _ & _ & _ & Htracks & _).
  exact (Htracks tracks_ex eq_refl).
Defined.

(** * [metrics]: derivatives and NaN removal *)

(** ** [np.gradient] *)

Lemma lookup_item (l : list Q) (i : nat) :
  (i < length l)%nat -> l !! i = Some (item l i).
Proof.
  revert i. induction l as [|a l IH]; intros [|i] Hi; simpl in *; try lia.
  - reflexivity.
  - apply IH. lia.
Qed.

Lemma np_gradient_Ok (f : list Q) (dx : Q) (y : list Q) :
  np_gradient f dx = Ok y ->
  (2 <= length f)%nat /\ length y = length f
  /\ y !! 0%nat = Some ((item f 1 - item f 0) / dx)%Q
  /\ y !! (length f - 1)%nat
     = Some ((item f (length f - 1) - item f (length f - 2)) / dx)%Q
  /\ forall i : nat, (1 <= i)%nat -> (i + 1 < length f)%nat ->
       y !! i = Some ((item f (i + 1) - item f (i - 1)) / (2 * dx))%Q.
Proof.
  unfold np_gradient. destruct (Nat.ltb_spec (length f) 2) as [Hn|Hn];
    [discriminate|].
  intros H. inv_Ok.
  set (mid := zip_with _ _ _).
  assert (length mid = (length f - 2)%nat) as Hmid.
  { unfold mid. rewrite length_zip_with, length_take, length_drop. lia. }
  split; [exact Hn|]. split; [simpl; rewrite length_app, Hmid; simpl; lia|].
  split; [reflexivity|]. split.
  - replace (length f - 1)%nat with (S (length mid + 0)) by lia.
    simpl. rewrite lookup_app_r by lia.
    replace (length mid + 0 - length mid)%nat with 0%nat by lia. simpl.
    do 4 f_equal; lia.
  - intros i Hi1 Hi2. destruct i as [|i]; [lia|]. simpl.
    rewrite lookup_app_l by lia. unfold mid.
    rewrite lookup_zip_with, lookup_take_lt, lookup_drop by lia.
    rewrite (lookup_item f i), (lookup_item f (2 + i)) by lia. simpl.
    do 4 f_equal; lia.
Qed.

Lemma np_gradient_Raised (f : list Q) (dx : Q) (e : exn) :
  np_gradient f dx = Raised e -> e = ValueError /\ (length f < 2)%nat.
Proof.
  unfold np_gradient. destruct (Nat.ltb_spec (length f) 2) as [Hn|Hn].
  - intros H. injection H as <-. auto.
  - discriminate.
Qed.

Lemma gradient_loop_add (m n : nat) (x : list Q) (dt : Q) :
  gradient_loop (m + n) x dt = (y ← gradient_loop m x dt; gradient_loop n y dt).
Proof.
  revert x. induction m as [|m IH]; intros x; simpl; [reflexivity|].
  destruct (np_gradient x dt) as [y|e]; simpl; [apply IH|reflexivity].
Qed.

Lemma gradient_loop_spec (k : nat) (x : list Q) (dt : Q) :
  match gradient_loop k x dt with
  | Ok y => length y = length x /\ (k = 0%nat \/ 2 <= length x)%nat
  | Raised e => e = ValueError /\ (0 < k)%nat /\ (length x < 2)%nat
  end.
Proof.
  revert x. induction k as [|k IH]; intros x; simpl; [auto|].
  destruct (np_gradient x dt) as [y|e] eqn:E; simpl.
  - apply np_gradient_Ok in E as (Hn & Hl & _).
    specialize (IH y). destruct (gradient_loop k y dt).
    + split; [lia|]. right. lia.
    + destruct IH as (-> & _ & Hy). lia.
  - apply np_gradient_Raised in E as [-> Hn]. split; [reflexivity|]. lia.
Qed.

(** X8. [derivative] raises [ValueError] exactly when the degree is at
    least one and the trace has fewer than two samples; otherwise it
    returns a trace of the length of its input, and the input itself
    when the degree is zero or negative. *)
Theorem derivative_outcome (x : list Q) (dt : Q) (degree : Z) :
  match derivative x dt degree with
  | Ok y => length y = length x
            /\ (degree <= 0 \/ (2 <= length x)%nat)
            /\ (degree <= 0 -> y = x)
  | Raised e => e = ValueError /\ 0 < degree /\ (length x < 2)%nat
  end.
Proof.
  unfold derivative.
  pose proof (gradient_loop_spec (Z.to_nat degree) x dt) as H.
  destruct (gradient_loop (Z.to_nat degree) x dt) as [y|e] eqn:E.
  - destruct H as [Hl Hk]. split; [exact Hl|]. split; [lia|].
    intros Hd. replace (Z.to_nat degree) with 0%nat in E by lia.
    simpl in E. congruence.
  - destruct H as (-> & Hk & Hl). split; [reflexivity|]. lia.
Qed.

(** X9. Taking the derivative [m + n] times is taking it [m] times and
    then [n] times: the acceleration (degree 2) is the velocity of the
    velocity, with its one-sided differences at both ends. *)
Theorem derivative_composes (x : list Q) (dt : Q) (m n : Z) :
  0 <= m -> 0 <= n ->
  derivative x dt (m + n) = (y ← derivative x dt m; derivative y dt n).
Proof.
  intros Hm Hn. unfold derivative.
  rewrite Z2Nat.inj_add by lia. apply gradient_loop_add.
Qed.

Lemma derivative_composes_witness :
  derivative [0; 1; 4; 9]%Q 1 (1 + 1)
  = (y ← derivative [0; 1; 4; 9]%Q 1 1; derivative y 1 1).
Proof.
  apply (derivative_composes [0; 1; 4; 9]%Q 1 1 1); lia.
Defined.





(** ** [np.flatnonzero] and indexing by a mask *)

Lemma valid_indices_nil k : valid_indices k [] = [].
Proof. reflexivity. Qed.

Lemma valid_indices_cons_Some k q x :
  valid_indices k (Some q :: x) = k :: valid_indices (k + 1) x.
Proof. reflexivity. Qed.

Lemma valid_indices_cons_None k x :
  valid_indices k (None :: x) = valid_indices (k + 1) x.
Proof. reflexivity. Qed.

Lemma valid_indices_app k x1 x2 :
  valid_indices k (x1 ++ x2)
  = valid_indices k x1 ++ valid_indices (k + Z.of_nat (length x1)) x2.
Proof.
  revert k. induction x1 as [|[q|] x1 IH]; intros k.
  - replace (k + Z.of_nat (length (@nil (option Q)))) with k by (simpl; lia).
    reflexivity.
  - change ((Some q :: x1) ++ x2) with (Some q :: (x1 ++ x2)).
    rewrite !valid_indices_cons_Some, IH.
    replace (k + 1 + Z.of_nat (length x1))
      with (k + Z.of_nat (length (Some q :: x1))) by (simpl; lia).
    reflexivity.
  - change ((None :: x1) ++ x2) with (None :: (x1 ++ x2)).
    rewrite !valid_indices_cons_None, IH.
    replace (k + 1 + Z.of_nat (length x1))
      with (k + Z.of_nat (length (@None Q :: x1))) by (simpl; lia).
    reflexivity.
Qed.

Lemma valid_indices_NaNs k n : valid_indices k (replicate n None) = [].
Proof.
  revert k. induction n as [|n IH]; intros k; [reflexivity|].
  simpl. rewrite valid_indices_cons_None. apply IH.
Qed.

Lemma valid_indices_bounds k x :
  Forall (fun j => k <= j < k + Z.of_nat (length x)) (valid_indices k x).
Proof.
  revert k. induction x as [|[q|] x IH]; intros k.
  - constructor.
  - rewrite valid_indices_cons_Some. constructor; [simpl; lia|].
    eapply Forall_impl; [apply IH|]. simpl. intros j Hj. lia.
  - rewrite valid_indices_cons_None.
    eapply Forall_impl; [apply IH|]. simpl. intros j Hj. lia.
Qed.

Lemma length_valid_indices k x :
  length (valid_indices k x) = length (valid_values x).
Proof.
  revert k. induction x as [|[q|] x IH]; intros k.
  - reflexivity.
  - rewrite valid_indices_cons_Some. simpl. f_equal. apply IH.
  - rewrite valid_indices_cons_None. apply IH.
Qed.

Lemma valid_values_app x1 x2 :
  valid_values (x1 ++ x2) = valid_values x1 ++ valid_values x2.
Proof. apply omap_app. Qed.

Lemma valid_values_NaNs n : valid_values (replicate n None) = [].
Proof. induction n as [|n IH]; [reflexivity|exact IH]. Qed.

Lemma valid_values_nil_iff x :
  valid_values x = [] <-> Forall (fun v => v = None) x.
Proof.
  induction x as [|[q|] x IH].
  - split; [constructor|reflexivity].
  - split; [discriminate|]. intros H. inversion H; discriminate.
  - change (valid_values (None :: x)) with (valid_values x). rewrite IH.
    split; [intros H; constructor; auto|intros H; inversion H; auto].
Qed.

Lemma mask_assign_flatnonzero (g : Z -> Q) (x : list (option Q)) (k : Z) :
  exists y,
    mask_assign x (map isnan x) (map g (flatnonzero_from k (map isnan x)))
    = Ok y
    /\ length y = length x
    /\ forall i : nat, y !! i = filled g (k + Z.of_nat i) <$> x !! i.
Proof.
  revert k. induction x as [|[q|] x IH]; intros k.
  - exists []. simpl. auto.
  - destruct (IH (k + 1)) as (y & Hy & Hl & Hlook).
    exists (Some q :: y). simpl. rewrite Hy. simpl.
    split; [reflexivity|]. split; [lia|].
    intros [|i]; simpl; [reflexivity|].
    rewrite Hlook. do 2 f_equal. lia.
  - destruct (IH (k + 1)) as (y & Hy & Hl & Hlook).
    exists (Some (g k) :: y). simpl. rewrite Hy. simpl.
    split; [reflexivity|]. split; [lia|].
    intros [|i]; simpl; [do 3 f_equal; lia|].
    rewrite Hlook. do 2 f_equal. lia.
Qed.

(** ** [remove_nan] *)

Lemma remove_nan_eval (x : list (option Q)) :
  match remove_nan x with
  | Ok y => valid_values x <> [] /\ length y = length x
            /\ forall i : nat,
                 y !! i = filled (nan_fill x) (Z.of_nat i) <$> x !! i
  | Raised e => e = ValueError /\ valid_values x = []
  end.
Proof.
  unfold remove_nan, np_interp.
  change (flatnonzero (map negb (map isnan x))) with (valid_indices 0 x).
  rewrite !length_map, length_valid_indices, Nat.eqb_refl.
  destruct (Nat.eqb_spec (length (valid_values x)) 0) as [H0|H0].
  - simpl. split; [reflexivity|]. destruct (valid_values x); [reflexivity|].
    discriminate H0.
  - simpl. unfold flatnonzero. rewrite map_map.
    destruct (mask_assign_flatnonzero
                (fun j => interp_at (map inject_Z (valid_indices 0 x))
                            (valid_values x) (inject_Z j)) x 0)
      as (y & -> & Hl & Hlook).
    split; [intros E; rewrite E in H0; simpl in H0; lia|].
    split; [exact Hl|]. intros i. rewrite Hlook. reflexivity.
Qed.

Lemma remove_nan_lookup (x y : list (option Q)) (i : nat) :
  remove_nan x = Ok y -> x !! i = Some None ->
  y !! i = Some (Some (nan_fill x (Z.of_nat i))).
Proof.
  intros H Hi. pose proof (remove_nan_eval x) as E. rewrite H in E.
  destruct E as (_ & _ & E). rewrite E, Hi. reflexivity.
Qed.

(** X11. [remove_nan] raises [ValueError] exactly when no entry is a
    number, an empty array included; otherwise it returns an array of the
    same length without NaN, in which every number of the input is in
    its place. *)
Theorem remove_nan_outcome (x : list (option Q)) :
  match remove_nan x with
  | Ok y => ~ Forall (fun v => v = None) x
            /\ length y = length x
            /\ Forall (fun v => v <> None) y
            /\ forall (i : nat) (q : Q),
                 x !! i = Some (Some q) -> y !! i = Some (Some q)
  | Raised e => e = ValueError /\ Forall (fun v => v = None) x
  end.
Proof.
  pose proof (remove_nan_eval x) as E.
  destruct (remove_nan x) as [y|e].
  - destruct E as (Hv & Hl & Hlook).
    split; [rewrite <- valid_values_nil_iff; exact Hv|].
    split; [exact Hl|]. split.
    + apply Forall_lookup. intros i v Hi. rewrite Hlook in Hi.
      destruct (x !! i) as [[q|]|]; simpl in Hi; congruence.
    + intros i q Hi. rewrite Hlook, Hi. reflexivity.
  - destruct E as [-> Hv]. split; [reflexivity|].
    apply valid_values_nil_iff, Hv.
Qed.

(** ** [np.interp] on increasing sample points *)

Lemma item_app_l (l1 l2 : list Q) (i : nat) :
  (i < length l1)%nat -> item (l1 ++ l2) i = item l1 i.
Proof. intros Hi. unfold item. apply app_nth1, Hi. Qed.

Lemma item_app_r (l1 l2 : list Q) (i : nat) :
  item (l1 ++ l2) (length l1 + i) = item l2 i.
Proof.
  unfold item. rewrite app_nth2 by lia. f_equal. lia.
Qed.


Lemma search_le_app (l1 l2 : list Q) (q : Q) :
  Forall (fun a => a <= q)%Q l1 ->
  search_le (l1 ++ l2) q = (length l1 + search_le l2 q)%nat.
Proof.
  induction 1 as [|a l1 Ha _ IH]; simpl; [reflexivity|].
  apply Qle_bool_iff in Ha. rewrite Ha, IH. reflexivity.
Qed.

Lemma search_le_stop (a : Q) (l : list Q) (q : Q) :
  (q < a)%Q -> search_le (a :: l) q = 0%nat.
Proof.
  intros Hq. simpl. destruct (Qle_bool a q) eqn:E; [|reflexivity].
  apply Qle_bool_iff in E. lra.
Qed.

Lemma interp_at_left (x0 f0 : Q) (xr fr : list Q) (q : Q) :
  (q < x0)%Q -> interp_at (x0 :: xr) (f0 :: fr) q = f0.
Proof.
  intros Hq. unfold interp_at. rewrite search_le_stop by exact Hq.
  reflexivity.
Qed.

Lemma interp_at_right (xl fl : list Q) (x0 f0 q : Q) :
  length xl = length fl -> Forall (fun a => a <= q)%Q xl -> (x0 < q)%Q ->
  interp_at (xl ++ [x0]) (fl ++ [f0]) q = f0.
Proof.
  intros Hl Hxl Hq. unfold interp_at.
  rewrite search_le_app by exact Hxl.
  rewrite length_app. simpl length.
  replace (length xl + 1 - 1)%nat with (length xl + 0)%nat by lia.
  rewrite item_app_r. rewrite Hl at 2. rewrite item_app_r.
  destruct (length xl + search_le [x0] q =? 0)%nat eqn:E0.
  { apply Nat.eqb_eq in E0. simpl in E0.
    destruct (Qle_bool x0 q) eqn:E; [lia|].
    assert (Qle_bool x0 q = true) as E' by (apply Qle_bool_iff; lra).
    congruence. }
  unfold item at 1. simpl nth.
  assert (Qlt_bool x0 q = true) as -> by (apply Qlt_bool_iff, Hq).
  reflexivity.
Qed.


(** ** What [remove_nan] writes *)




Lemma remove_nan_gap_runs :
  is_Ok (remove_nan ([] ++ Some 1%Q :: replicate 3 None ++ Some 9%Q :: [])).
Proof. eexists. vm_compute. reflexivity. Qed.


(** X13. NaN before the first number become that number, and NaN after
    the last number become that one: the ends are held, not
    extrapolated. *)
Theorem remove_nan_holds_the_ends
    (mid : list (option Q)) (a b : Q) (m n : nat) (y : list (option Q)) :
  remove_nan (replicate m None ++ Some a :: mid ++ Some b :: replicate n None)
  = Ok y ->
  (forall i : nat, (i < m)%nat -> y !! i = Some (Some a))
  /\ (forall i : nat, (i < n)%nat ->
        y !! (m + 1 + length mid + 1 + i)%nat = Some (Some b)).
Proof.
  intros H.
  set (x := replicate m None ++ Some a :: mid ++ Some b :: replicate n None)
    in *.
  assert (valid_indices 0 x
          = (Z.of_nat m :: valid_indices (Z.of_nat m + 1) mid)
            ++ [Z.of_nat m + 1 + Z.of_nat (length mid)]) as Hxp.
  { unfold x. rewrite valid_indices_app, valid_indices_NaNs, length_replicate.
    rewrite valid_indices_cons_Some, valid_indices_app.
    rewrite valid_indices_cons_Some, valid_indices_NaNs. reflexivity. }
  assert (valid_values x = (a :: valid_values mid) ++ [b]) as Hfp.
  { unfold x. rewrite valid_values_app, valid_values_NaNs.
    change (valid_values (Some a :: mid ++ Some b :: replicate n None))
      with (a :: valid_values (mid ++ Some b :: replicate n None)).
    rewrite valid_values_app.
    change (valid_values (Some b :: replicate n None))
      with (b :: valid_values (replicate n None)).
    rewrite valid_values_NaNs. reflexivity. }
  split; intros i Hi.
  - assert (x !! i = Some None) as Hx.
    { unfold x. rewrite lookup_app_l by (rewrite length_replicate; lia).
      apply lookup_replicate_2, Hi. }
    rewrite (remove_nan_lookup x y _ H Hx). do 2 f_equal.
    unfold nan_fill. rewrite Hxp, Hfp.
    apply interp_at_left. rewrite <- Zlt_Qlt. lia.
  - assert (x !! (m + 1 + length mid + 1 + i)%nat = Some None) as Hx.
    { unfold x. rewrite lookup_app_r by (rewrite length_replicate; lia).
      rewrite length_replicate.
      replace (m + 1 + length mid + 1 + i - m)%nat
        with (S (length mid + S i)) by lia.
      simpl. rewrite lookup_app_r by lia.
      replace (length mid + S i - length mid)%nat with (S i) by lia.
      simpl. apply lookup_replicate_2, Hi. }
    rewrite (remove_nan_lookup x y _ H Hx). do 2 f_equal.
    unfold nan_fill. rewrite Hxp, Hfp, map_app.
    apply interp_at_right.
    + simpl. rewrite length_map. f_equal. apply length_valid_indices.
    + apply Forall_map. constructor; [rewrite <- Zle_Qle; lia|].
      eapply Forall_impl; [apply valid_indices_bounds|].
      simpl. intros j Hj. rewrite <- Zle_Qle. lia.
    + simpl. rewrite <- Zlt_Qlt. lia.
Qed.

Lemma remove_nan_ends_runs :
  is_Ok (remove_nan (replicate 2 None ++ Some 5%Q :: [None; Some 6%Q]
                       ++ Some 7%Q :: replicate 1 None)).
Proof. eexists. vm_compute. reflexivity. Qed.

Lemma remove_nan_holds_the_ends_witness :
  exists y,
    remove_nan [None; None; Some 5; None; Some 6; Some 7; None]%Q = Ok y
    /\ y !! 0%nat = Some (Some 5%Q) /\ y !! 1%nat = Some (Some 5%Q)
    /\ y !! 6%nat = Some (Some 7%Q).
Proof.
  destruct remove_nan_ends_runs as [y E]. exists y.
  destruct (remove_nan_holds_the_ends [None; Some 6%Q] 5 7 2 1 y E)
    as [Hfirst Hlast].
  split; [exact E|]. split; [apply Hfirst; lia|].
  split; [apply Hfirst; lia|]. apply (Hlast 0%nat). lia.
Defined.

(** X14. A second pass of [remove_nan] returns its input: the result of
    the first has nothing left to fill. *)
Theorem remove_nan_idempotent (x y : list (option Q)) :
  remove_nan x = Ok y -> remove_nan y = Ok y.
Proof.
  intros H. pose proof (remove_nan_eval x) as E. rewrite H in E.
  destruct E as (Hv & Hl & Hlook).
  assert (forall i v, y !! i = Some v -> v <> None) as Hy.
  { intros i v Hi. rewrite Hlook in Hi.
    destruct (x !! i) as [[q|]|]; simpl in Hi; congruence. }
  pose proof (remove_nan_eval y) as E.
  destruct (remove_nan y) as [z|e].
  - destruct E as (_ & Hlz & Hz). f_equal. apply list_eq. intros i.
    rewrite Hz. destruct (y !! i) as [v|] eqn:Hi; [|reflexivity].
    destruct v as [q|]; [reflexivity|]. destruct (Hy i None Hi eq_refl).
  - destruct E as [_ E]. exfalso.
    destruct x as [|v x]; [apply Hv; reflexivity|].
    destruct y as [|w y]; [discriminate Hl|].
    destruct w as [q|]; [discriminate E|].
    exact (Hy 0%nat None eq_refl eq_refl).
Qed.

Lemma remove_nan_idempotent_witness :
  exists y,
    remove_nan [Some 1; None; None; None; Some 9]%Q = Ok y
    /\ remove_nan y = Ok y.
Proof.
  destruct remove_nan_gap_runs as [y E]. exists y.
  split; [exact E|]. exact (remove_nan_idempotent _ y E).
Defined.

(** * [psv.py]: identity swaps *)

Lemma swap_cells_length c1 c2 row : length (swap_cells c1 c2 row) = length row.
Proof.
  unfold swap_cells. destruct (row !! c1), (row !! c2); try reflexivity.
  rewrite !length_insert. reflexivity.
Qed.

Lemma swap_cells_lookup c1 c2 row f :
  (c1 < length row)%nat -> (c2 < length row)%nat ->
  swap_cells c1 c2 row !! f = row !! exchanged c1 c2 f.
Proof.
  intros H1 H2. unfold swap_cells, exchanged.
  destruct (lookup_lt_is_Some_2 row c1 H1) as [v1 E1].
  destruct (lookup_lt_is_Some_2 row c2 H2) as [v2 E2].
  rewrite E1, E2.
  destruct (decide (f = c1)) as [->|Hf1].
  - rewrite list_lookup_insert_eq by (rewrite length_insert; lia). congruence.
  - rewrite list_lookup_insert_ne by congruence.
    destruct (decide (f = c2)) as [->|Hf2].
    + rewrite list_lookup_insert_eq by lia. congruence.
    + rewrite list_lookup_insert_ne by congruence. reflexivity.
Qed.

Lemma exchanged_involutive c1 c2 f : exchanged c1 c2 (exchanged c1 c2 f) = f.
Proof.
  unfold exchanged. repeat case_decide; congruence.
Qed.

Lemma swap_cells_involutive c1 c2 row :
  (c1 < length row)%nat -> (c2 < length row)%nat ->
  swap_cells c1 c2 (swap_cells c1 c2 row) = row.
Proof.
  intros H1 H2. apply list_eq. intros f.
  rewrite !swap_cells_lookup by (rewrite ?swap_cells_length; lia).
  rewrite exchanged_involutive. reflexivity.
Qed.

Lemma map_swap_cells_involutive flies c1 c2 (l : list (list (list Q))) :
  rectangular flies l -> (c1 < flies)%nat -> (c2 < flies)%nat ->
  map (swap_cells c1 c2) (map (swap_cells c1 c2) l) = l.
Proof.
  intros Hr H1 H2. induction Hr as [|row l Hrow _ IH]; [reflexivity|].
  simpl. rewrite IH, swap_cells_involutive by lia. reflexivity.
Qed.

Lemma slice_from_le n i : (slice_from n i <= n)%nat.
Proof. unfold slice_from. case_decide; lia. Qed.

Lemma py_index_Some n i c : py_index n i = Some c -> (c < n)%nat.
Proof.
  unfold py_index. repeat case_decide; intros E; inversion E; lia.
Qed.

Lemma py_index_in_range n i :
  0 <= i < Z.of_nat n -> py_index n i = Some (Z.to_nat i).
Proof.
  intros H. unfold py_index. rewrite decide_True by exact H. reflexivity.
Qed.

Lemma swap_from_Ok strict flies start fly1 fly2 a c1 c2 :
  py_index flies fly1 = Some c1 -> py_index flies fly2 = Some c2 ->
  swap_from strict flies start fly1 fly2 a
  = Ok (take (slice_from (length a) start) a
        ++ map (swap_cells c1 c2) (drop (slice_from (length a) start) a)).
Proof.
  intros E1 E2. unfold swap_from. rewrite E1, E2. reflexivity.
Qed.

Lemma swap_from_length strict flies start fly1 fly2 a a' :
  swap_from strict flies start fly1 fly2 a = Ok a' -> length a' = length a.
Proof.
  unfold swap_from.
  destruct (py_index flies fly1), (py_index flies fly2);
    try (destruct (strict || _); intros H; inversion H; reflexivity).
  intros H. inv_Ok.
  rewrite length_app, length_map, length_take, length_drop. lia.
Qed.

Lemma swap_from_rectangular strict flies start fly1 fly2 a a' :
  rectangular flies a ->
  swap_from strict flies start fly1 fly2 a = Ok a' -> rectangular flies a'.
Proof.
  unfold swap_from, rectangular. intros Hr.
  destruct (py_index flies fly1), (py_index flies fly2);
    try (destruct (strict || _); intros H; inversion H; subst; exact Hr).
  intros H. inv_Ok. apply Forall_app. split.
  - apply Forall_take, Hr.
  - apply Forall_map. eapply Forall_impl; [apply Forall_drop, Hr|].
    simpl. intros row Hrow. rewrite swap_cells_length. exact Hrow.
Qed.

Lemma swap_from_swapped strict flies start fly1 fly2 a c1 c2 :
  rectangular flies a ->
  py_index flies fly1 = Some c1 -> py_index flies fly2 = Some c2 ->
  exists a', swap_from strict flies start fly1 fly2 a = Ok a'
             /\ swapped_from (slice_from (length a) start) c1 c2 a a'.
Proof.
  intros Hr E1 E2. eexists. split; [apply swap_from_Ok; eassumption|].
  set (s := slice_from (length a) start).
  split.
  { rewrite length_app, length_map, length_take, length_drop. lia. }
  intros t f. unfold cell.
  destruct (decide (s <= t)%nat) as [Hst|Hst].
  - assert (s <= length a)%nat as Hs by apply slice_from_le.
    rewrite lookup_app_r by (rewrite length_take; lia).
    rewrite length_take, Nat.min_l by lia.
    rewrite list_lookup_fmap, lookup_drop.
    replace (s + (t - s))%nat with t by lia.
    destruct (a !! t) as [row|] eqn:Et; [|reflexivity]. simpl.
    pose proof (Forall_lookup_1 _ _ _ _ Hr Et) as Hrow. simpl in Hrow.
    apply py_index_Some in E1, E2.
    apply swap_cells_lookup; lia.
  - destruct (decide (t < length a)%nat) as [Ht|Ht].
    + rewrite lookup_app_l by (rewrite length_take; lia).
      rewrite lookup_take_lt by lia. reflexivity.
    + rewrite (lookup_ge_None_2 a t) by lia.
      rewrite lookup_ge_None_2; [reflexivity|].
      rewrite length_app, length_map, length_take, length_drop. lia.
Qed.

Lemma swap_from_involutive strict flies start fly1 fly2 a a' :
  rectangular flies a ->
  is_Some (py_index flies fly1) -> is_Some (py_index flies fly2) ->
  swap_from strict flies start fly1 fly2 a = Ok a' ->
  swap_from strict flies start fly1 fly2 a' = Ok a.
Proof.
  intros Hr [c1 E1] [c2 E2] H.
  rewrite (swap_from_Ok _ _ _ _ _ _ c1 c2 E1 E2) in H. inv_Ok.
  rewrite (swap_from_Ok _ _ _ _ _ _ c1 c2 E1 E2). f_equal.
  set (s := slice_from (length a) start).
  rewrite length_app, length_map, length_take, length_drop.
  replace (slice_from (s `min` length a + (length a - s)) start) with s
    by (unfold s; f_equal; lia).
  assert (s <= length a)%nat as Hs by apply slice_from_le.
  rewrite take_app_length' by (rewrite length_take; lia).
  rewrite drop_app_length' by (rewrite length_take; lia).
  apply py_index_Some in E1, E2.
  rewrite (map_swap_cells_involutive flies) by (auto; apply Forall_drop, Hr).
  apply take_drop.
Qed.

Lemma list_remove_length t l :
  t ∈ l -> S (length (list_remove t l)) = length l.
Proof.
  induction l as [|u l IH]; intros Hin; [inversion Hin|].
  simpl. destruct (decide (t = u)) as [->|Hne]; [reflexivity|].
  simpl. f_equal. apply IH. apply elem_of_cons in Hin as [?|?]; congruence.
Qed.

Lemma list_remove_app_new t l : t ∉ l -> list_remove t (l ++ [t]) = l.
Proof.
  induction l as [|u l IH]; intros Hnin; simpl.
  - rewrite decide_True by reflexivity. reflexivity.
  - rewrite not_elem_of_cons in Hnin. destruct Hnin as [Hne Hnin].
    rewrite decide_False by exact Hne. f_equal. apply IH, Hnin.
Qed.

Lemma toggle_swap_changes t l : toggle_swap t l <> l.
Proof.
  unfold toggle_swap. intros E. apply (f_equal length) in E.
  destruct (decide (t ∈ l)) as [Hin|Hnin].
  - pose proof (list_remove_length t l Hin). lia.
  - rewrite length_app in E. simpl in E. lia.
Qed.

Lemma toggle_swap_twice t l : t ∉ l -> toggle_swap t (toggle_swap t l) = l.
Proof.
  intros Hnin. unfold toggle_swap at 2. rewrite decide_False by exact Hnin.
  unfold toggle_swap. rewrite decide_True by set_solver.
  apply list_remove_app_new, Hnin.
Qed.

Lemma song_rate_nonzero ds :
  ~ (song_rate ds == 0)%Q -> Qeq_bool (song_rate ds) 0 = false.
Proof.
  intros H. destruct (Qeq_bool (song_rate ds) 0) eqn:E; [|reflexivity].
  apply Qeq_bool_iff in E. contradiction.
Qed.

Lemma swap_from_Raised strict flies start fly1 fly2 a :
  py_index flies fly1 = None \/ py_index flies fly2 = None ->
  strict = true \/ (slice_from (length a) start < length a)%nat ->
  swap_from strict flies start fly1 fly2 a = Raised IndexError.
Proof.
  intros Hfly Hsel. unfold swap_from.
  assert (strict || (slice_from (length a) start <? length a)%nat = true)
    as ->.
  { destruct Hsel as [->|Hlt]; [reflexivity|].
    apply orb_true_iff. right. apply Nat.ltb_lt, Hlt. }
  destruct Hfly as [->| ->]; [|destruct (py_index flies fly1)]; reflexivity.
Qed.

(** X15. With both flies in range, [swap_flies] returns a dataset in
    which, in each of the three position arrays, the two flies have
    changed places at every time index from [int(index * fs_other /
    fs_song)] on, and every other entry is as before; the swap is toggled
    in the log. *)
Theorem swap_flies_exchanges strict ds index swap_events fly1 fly2 c1 c2 :
  well_shaped ds -> ~ (song_rate ds == 0)%Q ->
  py_index (n_flies ds) fly1 = Some c1 ->
  py_index (n_flies ds) fly2 = Some c2 ->
  exists ds',
    swap_flies strict ds index swap_events fly1 fly2
    = (toggle_swap (swap_index ds index, fly1, fly2) swap_events, Ok ds')
    /\ well_shaped ds'
    /\ swapped_from
         (slice_from (length (ds_pose_positions_allo ds)) (swap_index ds index))
         c1 c2 (ds_pose_positions_allo ds) (ds_pose_positions_allo ds')
    /\ swapped_from
         (slice_from (length (ds_pose_positions ds)) (swap_index ds index))
         c1 c2 (ds_pose_positions ds) (ds_pose_positions ds')
    /\ swapped_from
         (slice_from (length (ds_body_positions ds)) (swap_index ds index))
         c1 c2 (ds_body_positions ds) (ds_body_positions ds').
Proof.
  intros (Ha & Hp & Hb) Hfs E1 E2.
  destruct (swap_from_swapped strict _ (swap_index ds index) _ _ _ _ _ Ha E1 E2)
    as (a' & Ea & Sa).
  destruct (swap_from_swapped strict _ (swap_index ds index) _ _ _ _ _ Hp E1 E2)
    as (p' & Ep & Sp).
  destruct (swap_from_swapped strict _ (swap_index ds index) _ _ _ _ _ Hb E1 E2)
    as (b' & Eb & Sb).
  eexists. unfold swap_flies. rewrite song_rate_nonzero by exact Hfs.
  cbv zeta. rewrite Ea, Ep, Eb. simpl.
  split; [reflexivity|]. split; [|exact (conj Sa (conj Sp Sb))].
  split; [|split]; simpl.
  - exact (swap_from_rectangular _ _ _ _ _ _ _ Ha Ea).
  - exact (swap_from_rectangular _ _ _ _ _ _ _ Hp Ep).
  - exact (swap_from_rectangular _ _ _ _ _ _ _ Hb Eb).
Qed.

Lemma swap_flies_exchanges_witness :
  exists ds',
    swap_flies true swap_ds_ex 10 [] 0 1 = ([(1, 0, 1)], Ok ds')
    /\ cell (ds_body_positions ds') 0 0 = Some [1; 1]%Q
    /\ cell (ds_body_positions ds') 1 0 = Some [4; 4]%Q
    /\ cell (ds_body_positions ds') 2 1 = Some [5; 5]%Q.
Proof.
  destruct (swap_flies_exchanges true swap_ds_ex 10 [] 0 1 0%nat 1%nat)
    as (ds' & E & _ & _ & _ & _ & Hcell).
  - repeat split; repeat constructor.
  - intros E. vm_compute in E. discriminate E.
  - reflexivity.
  - reflexivity.
  - exists ds'. split; [exact E|].
    rewrite !Hcell. repeat split.
Defined.

(** X16. Swapping a second time negates the first swap: the same call on
    the returned dataset gives back the original arrays, and the original
    log as well when the swap was not in it before. *)
Theorem swap_flies_twice strict ds index swap_events fly1 fly2 log' ds' :
  well_shaped ds -> ~ (song_rate ds == 0)%Q ->
  is_Some (py_index (n_flies ds) fly1) ->
  is_Some (py_index (n_flies ds) fly2) ->
  swap_flies strict ds index swap_events fly1 fly2 = (log', Ok ds') ->
  exists log'',
    swap_flies strict ds' index log' fly1 fly2 = (log'', Ok ds)
    /\ ((swap_index ds index, fly1, fly2) ∉ swap_events -> log'' = swap_events).
Proof.
  intros (Ha & Hp & Hb) Hfs H1 H2 H.
  unfold swap_flies in H. rewrite song_rate_nonzero in H by exact Hfs.
  cbv zeta in H. injection H as Hlog H.
  bind_inv H as a' Ea. bind_inv H as p' Ep. bind_inv H as b' Eb. inv_Ok.
  unfold swap_flies. simpl. rewrite song_rate_nonzero by exact Hfs.
  unfold swap_index. simpl. fold (swap_index ds index).
  rewrite (swap_from_involutive _ _ _ _ _ _ _ Ha H1 H2 Ea).
  rewrite (swap_from_involutive _ _ _ _ _ _ _ Hp H1 H2 Ep).
  rewrite (swap_from_involutive _ _ _ _ _ _ _ Hb H1 H2 Eb).
  simpl. eexists. split.
  - destruct ds. reflexivity.
  - intros Hnin. apply toggle_swap_twice, Hnin.
Qed.

Lemma swap_ds_ex_swaps :
  match swap_flies true swap_ds_ex 10 [] 0 1 with
  | (log', Ok _) => log' = [(1, 0, 1)]
  | _ => False
  end.
Proof. vm_compute. reflexivity. Qed.

Lemma swap_flies_twice_witness :
  exists ds',
    swap_flies true swap_ds_ex 10 [] 0 1 = ([(1, 0, 1)], Ok ds')
    /\ swap_flies true ds' 10 [(1, 0, 1)] 0 1 = ([], Ok swap_ds_ex).
Proof.
  pose proof swap_ds_ex_swaps as Hrun.
  destruct (swap_flies true swap_ds_ex 10 [] 0 1) as [log' [ds'|e]] eqn:E;
    [|destruct Hrun].
  subst log'. exists ds'. split; [reflexivity|].
  destruct (swap_flies_twice true swap_ds_ex 10 [] 0 1 [(1, 0, 1)] ds')
    as (log'' & E2 & Hlog).
  - repeat split; repeat constructor.
  - intros E0. vm_compute in E0. discriminate E0.
  - eexists. reflexivity.
  - eexists. reflexivity.
  - exact E.
  - rewrite E2. f_equal. apply Hlog. apply not_elem_of_nil.
Defined.

(** X17. A fly index out of range makes [swap_flies] raise [IndexError]
    at the first array - but the log has been changed before: it holds
    the swap that was not made (or lacks the one it held). *)
Theorem failed_swap_is_logged strict ds index swap_events fly1 fly2 :
  ~ (song_rate ds == 0)%Q ->
  py_index (n_flies ds) fly1 = None \/ py_index (n_flies ds) fly2 = None ->
  strict = true
  \/ (slice_from (length (ds_pose_positions_allo ds)) (swap_index ds index)
      < length (ds_pose_positions_allo ds))%nat ->
  exists log',
    swap_flies strict ds index swap_events fly1 fly2 = (log', Raised IndexError)
    /\ log' = toggle_swap (swap_index ds index, fly1, fly2) swap_events
    /\ log' <> swap_events.
Proof.
  intros Hfs Hfly Hsel. eexists. split; [|split; [reflexivity|]].
  2: apply toggle_swap_changes.
  unfold swap_flies. rewrite song_rate_nonzero by exact Hfs. cbv zeta.
  rewrite (swap_from_Raised strict (n_flies ds) (swap_index ds index)
             fly1 fly2 (ds_pose_positions_allo ds) Hfly Hsel).
  reflexivity.
Qed.

Lemma failed_swap_is_logged_witness :
  swap_flies false swap_ds_ex 10 [] 0 2 = ([(1, 0, 2)], Raised IndexError).
Proof.
  destruct (failed_swap_is_logged false swap_ds_ex 10 [] 0 2)
    as (log' & E & Hlog & _).
  - intros E0. vm_compute in E0. discriminate E0.
  - right. reflexivity.
  - right. vm_compute. lia.
  - rewrite E, Hlog. reflexivity.
Defined.

(** * [gui/app.py]: the state of the viewer *)

Lemma np_clip_bounds (a lo hi : Q) :
  (lo <= hi)%Q -> (lo <= np_clip a lo hi <= hi)%Q.
Proof.
  intros H. unfold np_clip. split.
  - apply Q.min_glb; [apply Q.le_max_r|exact H].
  - apply Q.le_min_r.
Qed.

Lemma set_span_bounds (st : PSV) (val : Q) :
  (0 <= psv_tmax st)%Q ->
  (0 <= psv_span (set_span st val) <= psv_tmax st)%Q.
Proof.
  intros H. simpl. split.
  - apply Q.min_glb; [|exact H].
    apply Qle_trans with 200%Q; [discriminate|apply Q.le_max_l].
  - apply Q.le_min_r.
Qed.

Lemma set_t0_window (st : PSV) (val : Q) :
  (0 <= psv_span st <= psv_tmax st)%Q -> window_inside (set_t0 st val).
Proof.
  intros [H0 H1]. unfold window_inside. simpl.
  destruct (np_clip_bounds val (psv_span st / 2)
              (psv_tmax st - psv_span st / 2)) as [Hlo Hhi].
  { unfold Qdiv in *. change (/ 2)%Q with (1 # 2)%Q in *. lra. }
  unfold Qdiv in *. change (/ 2)%Q with (1 # 2)%Q in *. split; lra.
Qed.

Lemma goto_cuepoint_Ok (st : PSV) (i : Z) :
  0 <= i < Z.of_nat (length (psv_cue_points st)) ->
  exists c, psv_cue_points st !! Z.to_nat i = Some c
            /\ goto_cuepoint st i = Ok (set_t0 (with_cue_index st i) c).
Proof.
  intros Hi. unfold goto_cuepoint. rewrite py_index_in_range by exact Hi.
  destruct (lookup_lt_is_Some_2 (psv_cue_points st) (Z.to_nat i)) as [c Hc];
    [lia|].
  exists c. rewrite Hc. auto.
Qed.

Lemma goto_cuepoint_inv (st st' : PSV) (i : Z) :
  goto_cuepoint st i = Ok st' ->
  exists c, st' = set_t0 (with_cue_index st i) c.
Proof.
  unfold goto_cuepoint.
  destruct (py_index _ i) as [k|]; [|discriminate].
  destruct (psv_cue_points st !! k) as [c|]; [|discriminate].
  intros H. inv_Ok. eauto.
Qed.

Lemma view_bounds_Ok (st : PSV) :
  ~ (psv_fs_song st == 0)%Q -> ~ (psv_fs_other st == 0)%Q ->
  is_Ok (view_bounds st).
Proof.
  intros Hs Ho. unfold view_bounds, index_other, span_index.
  assert (Qeq_bool (psv_fs_song st) 0 = false) as ->.
  { destruct (Qeq_bool (psv_fs_song st) 0) eqn:E; [|reflexivity].
    apply Qeq_bool_iff in E. contradiction. }
  assert (Qeq_bool (psv_fs_other st) 0 = false) as ->.
  { destruct (Qeq_bool (psv_fs_other st) 0) eqn:E; [|reflexivity].
    apply Qeq_bool_iff in E. contradiction. }
  simpl. eexists. reflexivity.
Qed.

Lemma change_focal_fly_consistent (st : PSV) :
  consistent st -> consistent (change_focal_fly st).
Proof.
  intros (Hs & Ho & Hc & Hn & Hf & Hof & Hd & Hw).
  unfold change_focal_fly.
  pose proof (Z.mod_pos_bound (psv_focal_fly st + 1) (psv_nb_flies st)
                ltac:(lia)) as Hmod.
  destruct (Z.eqb_spec ((psv_focal_fly st + 1) mod psv_nb_flies st)
              (psv_other_fly st)) as [E|E];
    unfold consistent; simpl; repeat split; auto; lia.
Qed.

Lemma run_command_consistent (c : Command) (st : PSV) :
  consistent st ->
  exists st', run_command c st = Ok st' /\ consistent st'.
Proof.
  intros Hc.
  pose proof Hc as (Hs & Ho & Hcue & Hn & Hf & Hof & Hd & Hw).
  destruct c; simpl;
    try (eexists; split; [reflexivity|];
         first [ apply change_focal_fly_consistent, Hc
               | unfold consistent; simpl; repeat split; auto; lia ]).
  - (* previous cue point *)
    unfold set_prev_cuepoint.
    destruct (psv_cue_points st) as [|q cues] eqn:Ecues; [eauto|].
    destruct Hcue as [Hcue|Hcue]; [discriminate|].
    rewrite <- Ecues in *.
    destruct (goto_cuepoint_Ok st (Z.max 0 (psv_cue_index st - 1)))
      as (v & _ & ->); [lia|].
    eexists. split; [reflexivity|].
    unfold consistent; simpl; repeat split; auto; lia.
  - (* next cue point *)
    unfold set_next_cuepoint.
    destruct (psv_cue_points st) as [|q cues] eqn:Ecues; [eauto|].
    destruct Hcue as [Hcue|Hcue]; [discriminate|].
    rewrite <- Ecues in *.
    destruct (goto_cuepoint_Ok st
                (Z.min (psv_cue_index st + 1)
                   (Z.of_nat (length (psv_cue_points st)) - 1)))
      as (v & _ & ->); [lia|].
    eexists. split; [reflexivity|].
    unfold consistent; simpl; repeat split; auto; lia.
  - (* delete all events in view *)
    unfold delete_all_events.
    destruct (view_bounds_Ok st Hs Ho) as [b ->]. simpl.
    eexists. split; [reflexivity|].
    unfold consistent; simpl; repeat split; auto; lia.
Qed.

Lemma psv_ex_consistent : consistent psv_ex.
Proof.
  unfold consistent. simpl.
  split; [intros E; vm_compute in E; discriminate E|].
  split; [intros E; vm_compute in E; discriminate E|].
  repeat split; lia.
Qed.

(** X18. No sequence of these commands fails on a viewer as the
    constructor sets it up: stepping through the cue points never indexes
    outside the list, the focal fly and the other fly stay valid and,
    with two flies or more, distinct, and the spectrogram window never
    falls below two samples. *)
Theorem commands_keep_viewer_consistent (cs : list Command) (st : PSV) :
  consistent st ->
  exists st', run_commands cs st = Ok st' /\ consistent st'.
Proof.
  revert st. induction cs as [|c cs IH]; intros st Hc; simpl; [eauto|].
  destruct (run_command_consistent c st Hc) as (st1 & -> & Hc1). simpl.
  apply IH, Hc1.
Qed.

Lemma commands_keep_viewer_consistent_witness :
  exists st',
    run_commands [SetNextCuepoint; SetNextCuepoint; SetNextCuepoint;
                  SetPrevCuepoint; ChangeFocalFly; DecFreqRes] psv_ex = Ok st'
    /\ consistent st'.
Proof.
  apply (commands_keep_viewer_consistent _ psv_ex). exact psv_ex_consistent.
Defined.

Lemma run_command_span (c : Command) (st st' : PSV) :
  (0 <= psv_span st <= psv_tmax st)%Q ->
  run_command c st = Ok st' ->
  (0 <= psv_span st' <= psv_tmax st')%Q.
Proof.
  intros Hspan H.
  assert (0 <= psv_tmax st)%Q as Htmax by (destruct Hspan; lra).
  destruct c; simpl in H.
  - inv_Ok. exact Hspan.
  - inv_Ok. exact Hspan.
  - inv_Ok. exact Hspan.
  - inv_Ok. exact Hspan.
  - unfold set_prev_cuepoint in H.
    destruct (psv_cue_points st); [inv_Ok; exact Hspan|].
    apply goto_cuepoint_inv in H as [v ->]. exact Hspan.
  - unfold set_next_cuepoint in H.
    destruct (psv_cue_points st); [inv_Ok; exact Hspan|].
    apply goto_cuepoint_inv in H as [v ->]. exact Hspan.
  - inv_Ok. exact (set_span_bounds st _ Htmax).
  - inv_Ok. exact (set_span_bounds st _ Htmax).
  - inv_Ok. unfold change_focal_fly. destruct (_ =? _); exact Hspan.
  - inv_Ok. exact Hspan.
  - inv_Ok. exact Hspan.
  - unfold delete_all_events in H. bind_inv H as b Hb. inv_Ok. exact Hspan.
Qed.

Lemma run_commands_span (cs : list Command) (st st' : PSV) :
  (0 <= psv_span st <= psv_tmax st)%Q ->
  run_commands cs st = Ok st' ->
  (0 <= psv_span st' <= psv_tmax st')%Q.
Proof.
  revert st. induction cs as [|c cs IH]; intros st Hspan H; simpl in H.
  - inv_Ok. exact Hspan.
  - bind_inv H as st1 H1. eapply IH; [|exact H].
    eapply run_command_span; eassumption.
Qed.

(** X19. Once the span is within the recording ([0 <= span <= tmax], as
    after any zoom), whatever commands follow, a command that moves the
    view - a step by a frame, a jump by half a window, a cue point -
    leaves the whole window [t0 - span/2, t0 + span/2] inside the
    recording. *)
Theorem window_after_navigation (cs : list Command) (c : Command)
    (st st' st'' : PSV) :
  (0 <= psv_span st <= psv_tmax st)%Q ->
  run_commands cs st = Ok st' ->
  navigates c st' ->
  run_command c st' = Ok st'' ->
  window_inside st''.
Proof.
  intros Hspan Hcs Hnav H.
  pose proof (run_commands_span cs st st' Hspan Hcs) as Hspan'.
  destruct c; simpl in Hnav, H; try contradiction;
    try (inv_Ok; apply set_t0_window, Hspan').
  - unfold set_prev_cuepoint in H.
    destruct (psv_cue_points st') eqn:E; [contradiction|]. rewrite <- E in *.
    apply goto_cuepoint_inv in H as [v ->]. apply set_t0_window, Hspan'.
  - unfold set_next_cuepoint in H.
    destruct (psv_cue_points st') eqn:E; [contradiction|]. rewrite <- E in *.
    apply goto_cuepoint_inv in H as [v ->]. apply set_t0_window, Hspan'.
Qed.

Lemma psv_ex_navigation :
  match run_commands [ZoomOutSong; ZoomOutSong; JumpForward] psv_ex with
  | Ok st' => is_Ok (run_command SetNextCuepoint st')
  | Raised _ => False
  end.
Proof. vm_compute. eexists. reflexivity. Qed.

Lemma window_after_navigation_witness :
  exists st' st'',
    run_commands [ZoomOutSong; ZoomOutSong; JumpForward] psv_ex = Ok st'
    /\ run_command SetNextCuepoint st' = Ok st''
    /\ window_inside st''.
Proof.
  pose proof psv_ex_navigation as Hrun.
  destruct (run_commands [ZoomOutSong; ZoomOutSong; JumpForward] psv_ex)
    as [st'|e] eqn:E; [|destruct Hrun].
  destruct Hrun as [st'' E'']. exists st', st''.
  split; [reflexivity|]. split; [exact E''|].
  apply (window_after_navigation [ZoomOutSong; ZoomOutSong; JumpForward]
           SetNextCuepoint psv_ex st' st'').
  - split; intros Hlt; vm_compute in Hlt; discriminate Hlt.
  - exact E.
  - simpl. clear -E. vm_compute in E. inv_Ok. discriminate.
  - exact E''.
Defined.

Lemma clear_rows_lookup (start stop : Z) (a : list (list bool)) (i : nat) :
  clear_rows start stop a !! i
  = (fun row =>
       if (slice_from (length a) start <=? i)%nat
          && (i <? slice_from (length a) stop)%nat
       then map (fun _ => false) row else row) <$> a !! i.
Proof.
  unfold clear_rows. apply list_lookup_imap.
Qed.

(** X20. "Delete all events in view" clears the rows of the event array
    from [int(index_other - span_index)] up to
    [int(index_other + span_index)] and no other - as long as the first
    bound is not negative.  When it is negative (the window reaches
    before the start of the recording) the slice counts from the end of
    the array, and while the window is not wider than the recording
    nothing at all is deleted. *)
Theorem delete_all_events_outcome (st : PSV) (start stop : Z) :
  view_bounds st = Ok (start, stop) ->
  exists st',
    delete_all_events st = Ok st'
    /\ (0 <= start <= stop ->
        forall (i : nat) (row : list bool),
          psv_events st !! i = Some row ->
          psv_events st' !! i
          = Some (if decide (start <= Z.of_nat i < stop)
                  then map (fun _ => false) row else row))
    /\ (start < 0 -> 0 <= stop ->
        stop - start <= Z.of_nat (length (psv_events st)) ->
        psv_events st' = psv_events st).
Proof.
  intros Hb. unfold delete_all_events. rewrite Hb. simpl.
  eexists. split; [reflexivity|]. simpl. split.
  - intros Hss i row Hi. rewrite clear_rows_lookup, Hi. simpl. f_equal.
    assert (i < length (psv_events st))%nat as Hlt
      by (apply lookup_lt_is_Some; eauto).
    unfold slice_from. rewrite !decide_False by lia.
    destruct (decide (start <= Z.of_nat i < stop)) as [Hin|Hout].
    + assert ((Z.to_nat (start `min` Z.of_nat (length (psv_events st)))
               <=? i)%nat = true) as -> by (apply Nat.leb_le; lia).
      assert ((i <? Z.to_nat (stop `min` Z.of_nat (length (psv_events st))))%nat
              = true) as -> by (apply Nat.ltb_lt; lia).
      reflexivity.
    + destruct (Nat.leb_spec
                  (Z.to_nat (start `min` Z.of_nat (length (psv_events st)))) i)
        as [Hlo|Hlo]; [|reflexivity].
      destruct (Nat.ltb_spec i
                  (Z.to_nat (stop `min` Z.of_nat (length (psv_events st)))))
        as [Hhi|Hhi]; [|reflexivity].
      lia.
  - intros Hneg Hstop Hwide. apply list_eq. intros i.
    rewrite clear_rows_lookup.
    destruct (psv_events st !! i) as [row|] eqn:Hi; [|reflexivity].
    simpl. f_equal. unfold slice_from.
    rewrite decide_True by lia. rewrite decide_False by lia.
    destruct (Nat.leb_spec
                (Z.to_nat (0 `max` (start + Z.of_nat (length (psv_events st)))))
                i) as [Hlo|Hlo]; [|reflexivity].
    destruct (Nat.ltb_spec i
                (Z.to_nat (stop `min` Z.of_nat (length (psv_events st)))))
      as [Hhi|Hhi]; [|reflexivity].
    lia.
Qed.

Lemma psv_ex_zoomed_out_bounds :
  view_bounds (zoom_out_song psv_ex) = Ok (-20, 60).
Proof. vm_compute. reflexivity. Qed.

Lemma delete_all_events_outcome_witness :
  exists st',
    delete_all_events (zoom_out_song psv_ex) = Ok st'
    /\ psv_events st' = psv_events psv_ex
    /\ psv_events st' !! 0%nat = Some [true; false].
Proof.
  destruct (delete_all_events_outcome (zoom_out_song psv_ex) (-20) 60
              psv_ex_zoomed_out_bounds) as (st' & E & _ & Hsame).
  exists st'. split; [exact E|].
  assert (psv_events st' = psv_events psv_ex) as Hev.
  { apply Hsame; [lia|lia|]. vm_compute. discriminate. }
  split; [exact Hev|]. rewrite Hev. reflexivity.
Defined.
